(** * penda_code: severity aggregation and investigation normalizer

    A shallow embedding of [types_os.py]: the severity scale, the finding
    records and their validation, the AI call and the call collection with
    its temporal and existential queries, and the text normalizer
    [ClinicalDocumentation.lab_test_clean].

    Conventions of the embedding:
    - a Python exception is a value of [exn]; a function that may raise
      returns [result A];
    - [None] is [Datatypes.None], so [AICall | None] is [option AICall.t];
    - a Python [set] is a [gset], a [dict] constant whose order is never
      observed is a [gmap], and a [dict] whose insertion order is observed is
      an association list;
    - a [str] is a [string] whose characters are the code points below 256;
    - a [datetime] is naive or aware and carries its position on the time
      line; ordering a naive value against an aware one raises [TypeError],
      as it does in [max] and [min] over the timestamps of a collection. *)

From Stdlib Require Import ZArith Lia List String Ascii Sorting.Sorted Permutation.
From stdpp Require Import base decidable countable gmap sets list strings.
Import ListNotations.
Local Open Scope Z_scope.
#[local] Arguments String.append : simpl nomatch.

(** ** Exceptions *)

Inductive exn : Type :=
| ValueError (msg : string)
| KeyError (key : string)
| ValidationError (msg : string)
| TypeError (msg : string).

Inductive result (A : Type) : Type :=
| Ok (a : A)
| Err (e : exn).
Arguments Ok {A} a.
Arguments Err {A} e.

#[global] Instance result_ret : MRet result := fun A a => Ok a.
#[global] Instance result_bind : MBind result := fun A B f m =>
  match m with
  | Ok a => f a
  | Err e => Err e
  end.
#[global] Instance result_fmap : FMap result := fun A B f m =>
  match m with
  | Ok a => Ok (f a)
  | Err e => Err e
  end.

(** [[f(x) for x in l]] where [f] may raise: the first exception wins. *)
Fixpoint mapM_result {A B} (f : A -> result B) (l : list A) : result (list B) :=
  match l with
  | [] => Ok []
  | x :: l' => y ← f x; ys ← mapM_result f l'; Ok (y :: ys)
  end.

Definition is_ok {A} (r : result A) : bool :=
  match r with Ok _ => true | Err _ => false end.

(** ** The severity scale: [class Color(IntEnum)] *)

Inductive Color : Type := Green | Yellow | Red.

Definition Color_value (c : Color) : Z :=
  match c with
  | Green => 1
  | Yellow => 2
  | Red => 3
  end.

#[global] Instance Color_eq_dec : EqDecision Color.
Proof. solve_decision. Defined.

Definition Color_of_pos (p : positive) : option Color :=
  match p with
  | 1%positive => Some Green
  | 2%positive => Some Yellow
  | 3%positive => Some Red
  | _ => None
  end.

#[global] Program Instance Color_countable : Countable Color :=
  {| encode c := Z.to_pos (Color_value c); decode := Color_of_pos |}.
Next Obligation. by intros []. Qed.

(** [Color[name]]: lookup of a member by its name, [KeyError] otherwise. *)
Definition Color_getitem (name : string) : result Color :=
  if String.eqb name "Green" then Ok Green
  else if String.eqb name "Yellow" then Ok Yellow
  else if String.eqb name "Red" then Ok Red
  else Err (KeyError name).

(** ** [class ClinicalDecisionRule(Enum)] *)

Inductive ClinicalDecisionRule : Type :=
| TreatmentRecommendation
| DiagnosisEvaluation
| ClinicalNotes
| VitalsChiefComplaintEvaluation
| InvestigationRecommendations.

#[global] Instance ClinicalDecisionRule_eq_dec : EqDecision ClinicalDecisionRule.
Proof. solve_decision. Defined.

(** Iterating the enum class yields its members in definition order. *)
Definition ClinicalDecisionRule_members : list ClinicalDecisionRule :=
  [ TreatmentRecommendation; DiagnosisEvaluation; ClinicalNotes;
    VitalsChiefComplaintEvaluation; InvestigationRecommendations ].

(** ** The builtins [max] and [min] with a key

    CPython keeps the first item and replaces it only by an item whose key
    is strictly greater (for [max]) or strictly smaller (for [min]). On an
    empty iterable both raise [ValueError]; the wording of the message is
    that of CPython 3.12 and differs in older versions. *)

Fixpoint max_from {A} (key : A -> Z) (best : A) (l : list A) : A :=
  match l with
  | [] => best
  | x :: l' => max_from key (if key x >? key best then x else best) l'
  end.

Fixpoint min_from {A} (key : A -> Z) (best : A) (l : list A) : A :=
  match l with
  | [] => best
  | x :: l' => min_from key (if key x <? key best then x else best) l'
  end.

Definition py_max {A} (key : A -> Z) (l : list A) : result A :=
  match l with
  | [] => Err (ValueError "max() iterable argument is empty")
  | x :: l' => Ok (max_from key x l')
  end.

Definition py_min {A} (key : A -> Z) (l : list A) : result A :=
  match l with
  | [] => Err (ValueError "min() iterable argument is empty")
  | x :: l' => Ok (min_from key x l')
  end.

(** [max] and [min] with a key whose comparison may raise: the key of each
    further item is compared with the key of the item kept so far, and the
    first comparison that raises ends the call. *)
Fixpoint extremum_from {A K} (better : K -> K -> result bool) (key : A -> K)
    (best : A) (l : list A) : result A :=
  match l with
  | [] => Ok best
  | x :: l' =>
      b ← better (key x) (key best);
      match b with
      | true => extremum_from better key x l'
      | false => extremum_from better key best l'
      end
  end.

Definition py_max_by {A K} (gt : K -> K -> result bool) (key : A -> K) (l : list A) : result A :=
  match l with
  | [] => Err (ValueError "max() iterable argument is empty")
  | x :: l' => extremum_from gt key x l'
  end.

Definition py_min_by {A K} (lt : K -> K -> result bool) (key : A -> K) (l : list A) : result A :=
  match l with
  | [] => Err (ValueError "min() iterable argument is empty")
  | x :: l' => extremum_from lt key x l'
  end.

(** ** [datetime]

    A [datetime] is naive (no UTC offset) or aware (with one). Its integer is
    the position that ordering uses: the wall-clock reading of a naive value,
    the UTC instant of an aware one. The operators [<] and [>] between a
    naive and an aware value raise [TypeError]. *)

Inductive datetime : Type :=
| Naive (t : Z)
| Aware (t : Z).

Definition instant (d : datetime) : Z :=
  match d with
  | Naive t => t
  | Aware t => t
  end.

Definition same_kind (a b : datetime) : bool :=
  match a, b with
  | Naive _, Naive _ => true
  | Aware _, Aware _ => true
  | _, _ => false
  end.

Definition datetime_mixed : exn :=
  TypeError "can't compare offset-naive and offset-aware datetimes".

Definition datetime_gt (a b : datetime) : result bool :=
  if same_kind a b then Ok (instant a >? instant b) else Err datetime_mixed.

Definition datetime_lt (a b : datetime) : result bool :=
  if same_kind a b then Ok (instant a <? instant b) else Err datetime_mixed.

(** ** Finding validation *)

(** The untyped value that arrives under the key [Severity]. *)
Inductive raw : Type :=
| RStr (s : string)      (* a [str] *)
| RColor (c : Color)     (* already a member of [Color] *)
| RInt (n : Z)           (* an [int] *)
| RNone.                 (* [None] *)

(** [global_validate_severity]: the body has one [if isinstance(v, str)] and
    no other [return], so every value that is not a [str] yields [None]. *)
Definition global_validate_severity (v : raw) : result (option Color) :=
  match v with
  | RStr s =>
      match Color_getitem s with
      | Ok c => Ok (Some c)
      | Err _ => Err (ValueError ("Invalid severity: " +:+ s))
      end
  | _ => Ok None
  end.

(** What pydantic does with the value a [mode="before"] validator returns for
    a field annotated [Color]: a member is accepted, [None] is not. *)
Definition Color_field (v : option Color) : result Color :=
  match v with
  | Some c => Ok c
  | None => Err (ValidationError "Input should be 1, 2 or 3")
  end.

(** An exception raised inside a validator reaches the caller as a
    [ValidationError] carrying its message. *)
Definition in_validator {A} (r : result A) : result A :=
  match r with
  | Ok a => Ok a
  | Err (ValueError msg) => Err (ValidationError msg)
  | Err e => Err e
  end.

Module ResponseValue.
Record t : Type := mk { severity : Color; reason : string }.

Definition validate_severity (v : raw) : result (option Color) :=
  global_validate_severity v.

(** [ResponseValue(Severity=v, Reason=r)] *)
Definition new (v : raw) (r : string) : result t :=
  o ← in_validator (validate_severity v);
  c ← Color_field o;
  Ok (mk c r).
End ResponseValue.

Module RecommendationValue.
Record t : Type := mk { severity : Color; action : string }.

Definition validate_severity (v : raw) : result (option Color) :=
  global_validate_severity v.

(** [RecommendationValue(Severity=v, Action=a)] *)
Definition new (v : raw) (a : string) : result t :=
  o ← in_validator (validate_severity v);
  c ← Color_field o;
  Ok (mk c a).
End RecommendationValue.

(** ** [class AIResponse] *)

Module AIResponse.
Record t : Type := mk {
  responses : list ResponseValue.t;
  recommendations : list RecommendationValue.t
}.

(** The [model_validator(mode="after")]: an empty list is falsy. *)
Definition check_nonempty (values : t) : result t :=
  if bool_decide (responses values = []) && bool_decide (recommendations values = [])
  then Err (ValueError
    "AIResponse must have at least one response value or at least one recommendation value")
  else Ok values.

(** [AIResponse(Response=rs, Recommendations=cs)] from validated findings. *)
Definition new (rs : list ResponseValue.t) (cs : list RecommendationValue.t) : result t :=
  in_validator (check_nonempty (mk rs cs)).

(** The severities of every finding of the payload, observations first. *)
Definition severities (p : t) : list Color :=
  map ResponseValue.severity (responses p)
  ++ map RecommendationValue.severity (recommendations p).
End AIResponse.

(** ** [class AICall] *)

Inductive thumbs : Type := Up | Down | NoThumbs.
Inductive silence : Type := Active | Silent.

Module AICall.
Record t : Type := mk {
  rule : ClinicalDecisionRule;
  response : AIResponse.t;
  user_id : string;
  time : datetime;
  thumbs_up_down : thumbs;
  user_role_prompt : string;
  silent : silence;
  acknowledged : option bool
}.

(** The [color] property: the two set comprehensions, their union, and
    [max] of it (which raises on the empty set). *)
Definition color (self : t) : result Color :=
  let response_colors : gset Color :=
    list_to_set (map ResponseValue.severity (AIResponse.responses (response self))) in
  let recommendation_colors : gset Color :=
    list_to_set (map RecommendationValue.severity (AIResponse.recommendations (response self))) in
  let all_colors := response_colors ∪ recommendation_colors in
  py_max Color_value (elements all_colors).
End AICall.

(** ** [class AICalls] *)

Module AICalls.
Record t : Type := mk {
  calls : list AICall.t;
  rule : option ClinicalDecisionRule
}.

Definition _is_empty (self : t) : bool := bool_decide (calls self = []).

Definition for_rule (self : t) (r : ClinicalDecisionRule) : t :=
  let relevant_calls := filter (fun call => AICall.rule call = r) (calls self) in
  mk relevant_calls (Some r).

Definition for_rules (self : t) (rules : list ClinicalDecisionRule) : t :=
  let relevant_calls := filter (fun call => AICall.rule call ∈ rules) (calls self) in
  mk relevant_calls None.

Definition final (self : t) : result (option AICall.t) :=
  match rule self with
  | None => Err (ValueError "The final call is not defined for an AICalls object with no rule")
  | Some _ =>
      if _is_empty self then Ok None
      else Some <$> py_max_by datetime_gt AICall.time (calls self)
  end.

Definition first (self : t) : result (option AICall.t) :=
  match rule self with
  | None => Err (ValueError "The first call is not defined for an AICalls object with no rule")
  | Some _ =>
      if _is_empty self then Ok None
      else Some <$> py_min_by datetime_lt AICall.time (calls self)
  end.

(** [final.color if final else None]: a model instance is truthy. *)
Definition final_color (self : t) : result (option Color) :=
  f ← final self;
  match f with
  | Some c => Some <$> AICall.color c
  | None => Ok None
  end.

Definition first_color (self : t) : result (option Color) :=
  f ← first self;
  match f with
  | Some c => Some <$> AICall.color c
  | None => Ok None
  end.

(** The set comprehension runs over every member of the enum; the set
    holds colors and [None]. *)
Definition any_final_color (self : t) (color : Color) : result bool :=
  l ← mapM_result (fun r => final_color (for_rule self r)) ClinicalDecisionRule_members;
  let final_colors_for_rules : gset (option Color) := list_to_set l in
  Ok (bool_decide (Some color ∈ final_colors_for_rules)).

Definition any_first_color (self : t) (color : Color) : result bool :=
  l ← mapM_result (fun r => first_color (for_rule self r)) ClinicalDecisionRule_members;
  let first_colors_for_rules : gset (option Color) := list_to_set l in
  Ok (bool_decide (Some color ∈ first_colors_for_rules)).

Definition colors_seen (self : t) : result (option (gset Color)) :=
  if _is_empty self then Ok None
  else l ← mapM_result AICall.color (calls self); Ok (Some (list_to_set l)).

(** [max(colors) if colors else None]: [None] and the empty set are falsy. *)
Definition worst_color (self : t) : result (option Color) :=
  colors ← colors_seen self;
  match colors with
  | Some s => if bool_decide (elements s = []) then Ok None
              else Some <$> py_max Color_value (elements s)
  | None => Ok None
  end.

(** Every finding severity of every call of the collection. *)
Definition all_severities (self : t) : list Color :=
  concat (map (fun c => AIResponse.severities (AICall.response c)) (calls self)).

(** [color in colors if colors else None] *)
Definition ever_had_color (self : t) (color : Color) : result (option bool) :=
  colors ← colors_seen self;
  match colors with
  | Some s => if bool_decide (elements s = []) then Ok None
              else Ok (Some (bool_decide (color ∈ s)))
  | None => Ok None
  end.

(** The truth value of a member of [Color]: that of its integer. *)
Definition Color_truthy (c : Color) : bool := negb (Color_value c =? 0).

(** [fc == color if fc else None]; members compare as their integers. *)
Definition final_is_color (self : t) (color : Color) : result (option bool) :=
  fc ← final_color self;
  match fc with
  | Some c => if Color_truthy c then Ok (Some (Color_value c =? Color_value color))
              else Ok None
  | None => Ok None
  end.

Definition first_is_color (self : t) (color : Color) : result (option bool) :=
  fc ← first_color self;
  match fc with
  | Some c => if Color_truthy c then Ok (Some (Color_value c =? Color_value color))
              else Ok None
  | None => Ok None
  end.

(** [a or b] on values that are [True], [False] or [None]: [b] is evaluated
    only when [a] is not [True], and is then the result. *)
Definition or_else (a : option bool) (b : result (option bool)) : result (option bool) :=
  match a with
  | Some true => Ok a
  | _ => b
  end.

Definition final_red (self : t) : result (option bool) := final_is_color self Red.

Definition first_red (self : t) : result (option bool) := first_is_color self Red.

Definition final_red_yellow (self : t) : result (option bool) :=
  a ← final_is_color self Red; or_else a (final_is_color self Yellow).

Definition ever_red (self : t) : result (option bool) := ever_had_color self Red.

Definition ever_red_yellow (self : t) : result (option bool) :=
  a ← ever_had_color self Red; or_else a (ever_had_color self Yellow).

Definition any_final_red (self : t) : result bool := any_final_color self Red.

Definition any_first_red (self : t) : result bool := any_first_color self Red.

Definition any_final_red_yellow (self : t) : result bool :=
  a ← any_final_color self Red;
  match a with
  | true => Ok a
  | false => any_final_color self Yellow
  end.
End AICalls.

(** The payload invariant of a call, and of every call of a collection. *)
Definition valid_payload (p : AIResponse.t) : Prop :=
  is_ok (AIResponse.check_nonempty p) = true.

Definition valid_calls (cs : AICalls.t) : Prop :=
  Forall (fun c => valid_payload (AICall.response c)) (AICalls.calls cs).

(** [m] is a greatest element of [l] for the order of the scale. *)
Definition is_max_severity (m : Color) (l : list Color) : Prop :=
  m ∈ l /\ forall x, x ∈ l -> Color_value x <= Color_value m.

(** ** String operations of the normalizer *)

Definition nl : string := String "010"%char EmptyString.

(** [str.isspace] on a code point below 256; also the class [\s] of [re]. *)
Definition is_space (c : ascii) : bool :=
  let n := N_of_ascii c in
  ((9 <=? n) && (n <=? 13) || (28 <=? n) && (n <=? 32) || (n =? 133) || (n =? 160))%N.

Fixpoint lstrip (s : string) : string :=
  match s with
  | EmptyString => EmptyString
  | String c s' => if is_space c then lstrip s' else s
  end.

Fixpoint rstrip (s : string) : string :=
  match s with
  | EmptyString => EmptyString
  | String c s' =>
      match rstrip s' with
      | EmptyString => if is_space c then EmptyString else String c EmptyString
      | r => String c r
      end
  end.

(** [s.strip()] *)
Definition strip (s : string) : string := rstrip (lstrip s).

Definition lower_char (c : ascii) : ascii :=
  let n := N_of_ascii c in
  if ((65 <=? n) && (n <=? 90) || (192 <=? n) && (n <=? 222) && negb (n =? 215))%N
  then ascii_of_N (n + 32) else c.

(** [s.lower()] *)
Fixpoint lower (s : string) : string :=
  match s with
  | EmptyString => EmptyString
  | String c s' => String (lower_char c) (lower s')
  end.

(** [sub in s] *)
Fixpoint contains (sub s : string) : bool :=
  String.prefix sub s ||
  match s with
  | EmptyString => false
  | String _ s' => contains sub s'
  end.

(** [s.endswith(suf)] *)
Fixpoint endswith (suf s : string) : bool :=
  String.eqb suf s ||
  match s with
  | EmptyString => false
  | String _ s' => endswith suf s'
  end.

Fixpoint string_drop (n : nat) (s : string) : string :=
  match n, s with
  | S k, String _ s' => string_drop k s'
  | _, _ => s
  end.

(** [s.replace(old, new)] for a non-empty [old]: occurrences are found left
    to right and do not overlap. [skip] counts the characters of an
    occurrence that are still to be passed over. *)
Fixpoint replace_go (old new : string) (skip : nat) (s : string) : string :=
  match s with
  | EmptyString => EmptyString
  | String c s' =>
      match skip with
      | S k => replace_go old new k s'
      | O =>
          if String.prefix old s
          then new +:+ replace_go old new (String.length old - 1) s'
          else String c (replace_go old new 0 s')
      end
  end.

Definition str_replace (old new s : string) : string := replace_go old new 0 s.

(** Put a character in front of the piece being built. *)
Definition push_char (c : ascii) (ps : list string) : list string :=
  match ps with
  | [] => [String c EmptyString]
  | p :: ps' => String c p :: ps'
  end.

(** [s.split(sep)] for a non-empty [sep]. *)
Fixpoint split_go (sep : string) (skip : nat) (s : string) : list string :=
  match s with
  | EmptyString => [EmptyString]
  | String c s' =>
      match skip with
      | S k => split_go sep k s'
      | O =>
          if String.prefix sep s
          then EmptyString :: split_go sep (String.length sep - 1) s'
          else push_char c (split_go sep 0 s')
      end
  end.

Definition str_split (sep s : string) : list string := split_go sep 0 s.

(** The first occurrence of [sep]: what is before it and what is after. *)
Fixpoint partition_first (sep s : string) : option (string * string) :=
  if String.prefix sep s then Some (EmptyString, string_drop (String.length sep) s)
  else
    match s with
    | EmptyString => None
    | String c s' =>
        match partition_first sep s' with
        | Some (a, b) => Some (String c a, b)
        | None => None
        end
    end.

(** [s.split(sep, 1)] *)
Definition str_split1 (sep s : string) : list string :=
  match partition_first sep s with
  | Some (a, b) => [a; b]
  | None => [s]
  end.

(** [a, b = l] *)
Definition unpack2 (l : list string) : result (string * string) :=
  match l with
  | [a; b] => Ok (a, b)
  | [] => Err (ValueError "not enough values to unpack (expected 2, got 0)")
  | [_] => Err (ValueError "not enough values to unpack (expected 2, got 1)")
  | _ => Err (ValueError "too many values to unpack (expected 2)")
  end.

(** ** The regular expression of the pair separator

    The fragment of [re] that the pattern uses, with the backtracking order
    of the engine: a character class taken once, as often as possible
    ([*]) or as seldom as possible but at least once ([+?]), and a
    lookahead. [rmatch r s] is what is left of [s] after the first way of
    matching [r] at the start of [s]. *)

Inductive quant : Type := Once | GreedyStar | LazyPlus.

Inductive regex : Type :=
| Done
| Atom (p : ascii -> bool) (q : quant) (rest : regex)
| LookAhead (inner : regex) (rest : regex).

Fixpoint rmatch (r : regex) : string -> option string :=
  match r with
  | Done => fun s => Some s
  | Atom p Once rest => fun s =>
      match s with
      | String c s' => if p c then rmatch rest s' else None
      | EmptyString => None
      end
  | Atom p GreedyStar rest =>
      fix star (s : string) : option string :=
        match s with
        | String c s' =>
            if p c then
              match star s' with
              | Some e => Some e
              | None => rmatch rest s
              end
            else rmatch rest s
        | EmptyString => rmatch rest EmptyString
        end
  | Atom p LazyPlus rest => fun s =>
      match s with
      | String c s' =>
          if p c then
            (fix more (s : string) : option string :=
               match rmatch rest s with
               | Some e => Some e
               | None =>
                   match s with
                   | String c s' => if p c then more s' else None
                   | EmptyString => None
                   end
               end) s'
          else None
      | EmptyString => None
      end
  | LookAhead inner rest => fun s =>
      match rmatch inner s with
      | Some _ => rmatch rest s
      | None => None
      end
  end.

Definition is_char (a c : ascii) : bool := Ascii.eqb c a.

(** The class [[^,:]]. *)
Definition not_comma_colon (c : ascii) : bool :=
  negb (Ascii.eqb c ","%char) && negb (Ascii.eqb c ":"%char).

(** The pattern [,\s*(?=[^,:]+?:)]. *)
Definition pair_separator : regex :=
  Atom (is_char ","%char) Once
    (Atom is_space GreedyStar
       (LookAhead
          (Atom not_comma_colon LazyPlus (Atom (is_char ":"%char) Once Done))
          Done)).

(** [re.split(r, s)] for a pattern without groups: the text is scanned left
    to right, a match that consumes characters closes the current piece and
    the scan resumes after it. (The pattern here always consumes its comma;
    a match of no character is passed over.) *)
Fixpoint re_split_go (r : regex) (skip : nat) (s : string) : list string :=
  match s with
  | EmptyString => [EmptyString]
  | String c s' =>
      match skip with
      | S k => re_split_go r k s'
      | O =>
          match rmatch r s with
          | Some e =>
              match (String.length s - String.length e)%nat with
              | S k => EmptyString :: re_split_go r k s'
              | O => push_char c (re_split_go r 0 s')
              end
          | None => push_char c (re_split_go r 0 s')
          end
      end
  end.

Definition re_split (r : regex) (s : string) : list string := re_split_go r 0 s.

(** ** Dictionaries that remember insertion order *)

Definition dict : Type := list (string * string).

(** [d[k] = v]: a new key goes last, an old key keeps its place. *)
Fixpoint dict_set (k v : string) (d : dict) : dict :=
  match d with
  | [] => [(k, v)]
  | (k', v') :: d' =>
      if String.eqb k' k then (k', v) :: d' else (k', v') :: dict_set k v d'
  end.

(** [d[k]] *)
Fixpoint dict_get (k : string) (d : dict) : result string :=
  match d with
  | [] => Err (KeyError k)
  | (k', v') :: d' => if String.eqb k' k then Ok v' else dict_get k d'
  end.

(** [del d[k]] *)
Fixpoint dict_del (k : string) (d : dict) : result dict :=
  match d with
  | [] => Err (KeyError k)
  | (k', v') :: d' =>
      if String.eqb k' k then Ok d' else d'' ← dict_del k d'; Ok ((k', v') :: d'')
  end.

Definition dict_keys (d : dict) : list string := map fst d.

(** ** [sorted] with a key

    The keys are computed first, one per item and in order (so a key
    function that raises makes [sorted] raise); the sort is stable and
    compares keys with [<] only. *)

Section Sorting.
Context {K A : Type} (ltb : K -> K -> bool).

Fixpoint insert_keyed (x : K * A) (l : list (K * A)) : list (K * A) :=
  match l with
  | [] => [x]
  | y :: l' => if ltb (fst y) (fst x) then y :: insert_keyed x l' else x :: y :: l'
  end.

Fixpoint sort_keyed (l : list (K * A)) : list (K * A) :=
  match l with
  | [] => []
  | x :: l' => insert_keyed x (sort_keyed l')
  end.

Definition sorted_by (key : A -> result K) (l : list A) : result (list A) :=
  ks ← mapM_result key l;
  Ok (map snd (sort_keyed (zip ks l))).
End Sorting.

(** ** [repr] of a [str]

    CPython writes the text between single quotes, or between double quotes
    when the text holds a single quote and no double quote. A backslash and
    the quote in use are written after a backslash; tab, newline and carriage
    return are written [\t], [\n] and [\r]; any other code point that is not
    printable is written [\xhh] with two lower-case hexadecimal digits. Below
    256 the printable code points are 32 to 126 and 161 to 255 without 173. *)

Definition squote : ascii := "039"%char.
Definition dquote : ascii := "034"%char.
Definition backslash : ascii := "092"%char.

Definition is_printable (c : ascii) : bool :=
  let n := N_of_ascii c in
  ((32 <=? n) && (n <=? 126) || (161 <=? n) && (n <=? 255) && negb (n =? 173))%N.

Definition hex_digit (n : N) : ascii :=
  ascii_of_N (if (n <? 10)%N then 48 + n else 87 + n).

Definition repr_char (quote c : ascii) : string :=
  if Ascii.eqb c quote || Ascii.eqb c backslash then String backslash (String c EmptyString)
  else if Ascii.eqb c "009"%char then String backslash "t"
  else if Ascii.eqb c "010"%char then String backslash "n"
  else if Ascii.eqb c "013"%char then String backslash "r"
  else if is_printable c then String c EmptyString
  else
    let n := N_of_ascii c in
    String backslash
      (String "x"%char (String (hex_digit (n / 16)) (String (hex_digit (n mod 16)) EmptyString))).

Fixpoint repr_body (quote : ascii) (s : string) : string :=
  match s with
  | EmptyString => EmptyString
  | String c s' => repr_char quote c +:+ repr_body quote s'
  end.

Fixpoint has_char (c : ascii) (s : string) : bool :=
  match s with
  | EmptyString => false
  | String x s' => Ascii.eqb x c || has_char c s'
  end.

Definition py_repr (s : string) : string :=
  let quote := if has_char squote s && negb (has_char dquote s) then dquote else squote in
  String quote (repr_body quote s) +:+ String quote EmptyString.

(** [l.index(x)]; the message of the [ValueError] shows [repr(x)]. *)
Fixpoint list_index (x : string) (l : list string) : result nat :=
  match l with
  | [] => Err (ValueError (py_repr x +:+ " is not in list"))
  | y :: l' => if String.eqb y x then Ok O else S <$> list_index x l'
  end.

(** ** The field-order table *)

Definition FHG_ORDER : list string :=
  [ "Result.."; "WBC"; "HGB"; "HCT"; "Plt"; "RBC (Full Haemogram)"; "MCV";
    "MCH"; "MCHC"; "RDW-CV"; "RDW-SD"; "Neutrophill percentage";
    "Mid-granulocyte Percentage"; "Lymphocyte Percentage";
    "Neutrophill count"; "Mid-granulocytes Count"; "Lymphocytes Count";
    "MPV"; "PDW"; "PCT"; "P-LCR"; "P-LCC" ]%string.

Definition URINE_ORDER : list string :=
  [ "Result.."; "Colour."; "Appearance (Urine Analysis)"; "pH (Dipstick)";
    "Specific Gravity"; "Glucose"; "Ketones"; "Proteins"; "Blood (Dipstick)";
    "Leukocytes"; "Nitrate"; "Urobilinogen"; "Pus cells";
    "RBC's (Urinalysis-Microscopy)"; "Epithelial Cells";
    "Crystals -- Amount (Microscopy)"; "Parasites (Urine Microscopy)";
    "Trichomonads (Urinalysis-Microscopy)"; "Yeast cells (Microscopy)";
    "Amount of yeast cells"; "Bilirubin."; "Casts - type";
    "Crystals -- Type" ]%string.

Definition STOOL_ORDER : list string :=
  [ "Result.."; "Colour"; "Consistency"; "Blood (Gross Appearance)";
    "Mucous"; "RBC's (Microscopy)"; "Pus cells"; "Parasites";
    "Yeast cells (Microscopy)"; "Amount of yeast cells";
    "Crystals -- Amount"; "Crystals -- Type" ]%string.

Definition INVESTIGATION_SUBFIELD_SORT_ORDER : gmap string (list string) :=
  <[ "Full Haemogram (FHG)"%string := FHG_ORDER ]>
  (<[ "Urine Analysis"%string := URINE_ORDER ]>
  (<[ "Stool Microscopy"%string := STOOL_ORDER ]> ∅)).

(** ** [ClinicalDocumentation.lab_test_clean] *)

Fixpoint foldM_result {A B} (f : B -> A -> result B) (acc : B) (l : list A) : result B :=
  match l with
  | [] => Ok acc
  | x :: l' => acc' ← f acc x; foldM_result f acc' l'
  end.

(** The inner loop over the chunks of [re.split]: each chunk is split on its
    first colon and stored under its stripped key. *)
Definition parse_pairs (investigation_value : string) : result dict :=
  foldM_result
    (fun investigation_substrings chunk =>
       '(key, value) ← unpack2 (str_split1 ":" chunk);
       Ok (dict_set (strip key) (strip value) investigation_substrings))
    [] (re_split pair_separator investigation_value).

(** ["result" in k.lower() and k.endswith(".")] *)
Definition is_result_key (k : string) : bool :=
  contains "result" (lower k) && endswith "." k.

Definition bullet (k v : string) : string :=
  nl +:+ "* " +:+ k +:+ ": " +:+ v.

(** The loop over [result_keys]: one bullet each, and the key is deleted. *)
Definition emit_result_keys (result_keys : list string)
    (formatted_string : string) (investigation_substrings : dict)
  : result (string * dict) :=
  foldM_result
    (fun '(formatted_string, investigation_substrings) result_key =>
       v ← dict_get result_key investigation_substrings;
       d ← dict_del result_key investigation_substrings;
       Ok (formatted_string +:+ bullet result_key v, d))
    (formatted_string, investigation_substrings) result_keys.

(** The two branches that compute [sorted_keys]. *)
Definition sorted_keys (investigation_name : string) (investigation_substrings : dict)
  : result (list string) :=
  match INVESTIGATION_SUBFIELD_SORT_ORDER !! investigation_name with
  | Some order =>
      sorted_by Nat.ltb (fun x => list_index x order) (dict_keys investigation_substrings)
  | None =>
      sorted_by String.ltb Ok (dict_keys investigation_substrings)
  end.

(** The body of the loop over [investigation_list]. *)
Definition format_investigation (formatted_string investigation : string) : result string :=
  '(investigation_name, investigation_value) ← unpack2 (str_split1 ":" investigation);
  let investigation_name := strip investigation_name in
  let investigation_value := strip investigation_value in
  investigation_substrings ← parse_pairs investigation_value;
  let formatted_string := formatted_string +:+ investigation_name +:+ ": " in
  let result_keys := filter (fun k => is_result_key k = true) (dict_keys investigation_substrings) in
  '(formatted_string, investigation_substrings) ←
    emit_result_keys result_keys formatted_string investigation_substrings;
  ks ← sorted_keys investigation_name investigation_substrings;
  formatted_string ←
    foldM_result
      (fun formatted_string k =>
         v ← dict_get k investigation_substrings;
         Ok (formatted_string +:+ bullet k v))
      formatted_string ks;
  Ok (formatted_string +:+ nl +:+ nl).

Definition lab_test_clean (lab_test : option string) : result (option string) :=
  match lab_test with
  | None => Ok None
  | Some s =>
      if String.eqb s "Not recorded" then Ok (Some "Not recorded"%string)
      else
        let s := str_replace ("**Investigations conducted:**" +:+ nl) "" s in
        let s := str_replace "::" ":" s in
        let investigation_list := str_split (nl +:+ nl) s in
        Some <$> foldM_result format_investigation EmptyString investigation_list
  end.

(** ** Specification vocabulary *)

(** [m] is the first item of [l] whose key is greatest. *)
Definition first_max_by {A} (key : A -> Z) (m : A) (l : list A) : Prop :=
  exists pre post, l = pre ++ m :: post
    /\ Forall (fun x => key x < key m) pre
    /\ Forall (fun x => key x <= key m) post.

(** [m] is the first item of [l] whose key is least. *)
Definition first_min_by {A} (key : A -> Z) (m : A) (l : list A) : Prop :=
  exists pre post, l = pre ++ m :: post
    /\ Forall (fun x => key m < key x) pre
    /\ Forall (fun x => key m <= key x) post.

(** The position of a call on the time line. *)
Definition stamp (c : AICall.t) : Z := instant (AICall.time c).

(** The timestamps of [l] can be ordered against each other: all are naive
    or all are aware. *)
Definition times_comparable (l : list AICall.t) : bool :=
  match l with
  | [] => true
  | c :: l' => forallb (fun x => same_kind (AICall.time x) (AICall.time c)) l'
  end.

(** The same within each category of the collection. *)
Definition category_times_comparable (cs : AICalls.t) : bool :=
  forallb (fun r => times_comparable (AICalls.calls (AICalls.for_rule cs r)))
    ClinicalDecisionRule_members.

(** [r] is [l] with exactly the items that satisfy [P] kept, in their order:
    the greatest sublist of [l] whose items all satisfy [P]. *)
Definition keeps_exactly {A} (P : A -> Prop) (l r : list A) : Prop :=
  r `sublist_of` l
  /\ Forall P r
  /\ forall l', l' `sublist_of` l -> Forall P l' -> l' `sublist_of` r.

(** Every character of [s] satisfies [p]. *)
Fixpoint string_forall (p : ascii -> bool) (s : string) : bool :=
  match s with
  | EmptyString => true
  | String c s' => p c && string_forall p s'
  end.

Definition not_colon (c : ascii) : bool := negb (is_char ":"%char c).

(** [t] begins like a new [key:]: a run of at least one character, none a
    comma or a colon, and then a colon. *)
Definition starts_key (t : string) : Prop :=
  exists run tail, t = run +:+ ":" +:+ tail
    /\ run <> EmptyString /\ string_forall not_comma_colon run = true.

(** [s] is whitespace [ws] and then [e], which begins like a new key; [ws]
    is the longest whitespace for which that holds. *)
Definition spaces_before (s e : string) : Prop :=
  exists ws, s = ws +:+ e
    /\ string_forall is_space ws = true
    /\ starts_key e
    /\ forall ws' e', s = ws' +:+ e' ->
         string_forall is_space ws' = true -> starts_key e' ->
         (String.length ws' <= String.length ws)%nat.

(** [s] begins with a pair separator and [e] is what follows it: a comma,
    then whitespace [ws], then [e], which begins like a new key; [ws] is the
    longest whitespace for which that holds. *)
Definition separator_at (s e : string) : Prop :=
  exists ws, s = "," +:+ ws +:+ e
    /\ string_forall is_space ws = true
    /\ starts_key e
    /\ forall ws' e', ws +:+ e = ws' +:+ e' ->
         string_forall is_space ws' = true -> starts_key e' ->
         (String.length ws' <= String.length ws)%nat.

(** What [re.split] makes of [s] with the pair separator: the text up to the
    first separator, and then what it makes of the text after it. *)
Inductive split_at_separators : string -> list string -> Prop :=
| split_last (s : string) :
    (forall pre suf e, s = pre +:+ suf -> ~ separator_at suf e) ->
    split_at_separators s [s]
| split_next (pre suf e : string) (chunks : list string) :
    (forall p1 p2 e', pre = p1 +:+ p2 -> p2 <> EmptyString ->
       ~ separator_at (p2 +:+ suf) e') ->
    separator_at suf e ->
    split_at_separators e chunks ->
    split_at_separators (pre +:+ suf) (pre :: chunks).

(** The parts of [pair_separator], named for the proofs. *)
Definition colon_re : regex := Atom (is_char ":"%char) Once Done.
Definition key_re : regex := Atom not_comma_colon LazyPlus colon_re.
Definition look_re : regex := LookAhead key_re Done.
Definition space_re : regex := Atom is_space GreedyStar look_re.

(** [x] may stand before [y] in the output of a sort: [y < x] does not hold. *)
Definition inorder {K A} (ltb : K -> K -> bool) (x y : K * A) : Prop :=
  ltb (fst y) (fst x) = false.

(** [a] stands at or before [b] in the declared order. *)
Definition by_index (order : list string) (a b : string) : Prop :=
  exists i j, list_index a order = Ok i /\ list_index b order = Ok j /\ (i <= j)%nat.

(** The order of [str]: lexicographic on code points. *)
Definition alphabetical (a b : string) : Prop := String.leb a b = true.

(** ** Example data *)

(** Observations Green and Red, one recommendation Yellow. *)
Definition example_call : AICall.t :=
  AICall.mk DiagnosisEvaluation
    (AIResponse.mk
       [ResponseValue.mk Green "stable"; ResponseValue.mk Red "sepsis"]
       [RecommendationValue.mk Yellow "review"])
    "u1" (Aware 10) NoThumbs "clinician" Active None.

Definition yellow_call_at_10 : AICall.t :=
  AICall.mk DiagnosisEvaluation
    (AIResponse.mk [ResponseValue.mk Yellow "watch"] [])
    "u1" (Aware 10) Up "clinician" Active None.

Definition red_call_at_20 : AICall.t :=
  AICall.mk DiagnosisEvaluation
    (AIResponse.mk [] [RecommendationValue.mk Red "refer"])
    "u2" (Aware 20) Down "clinician" Silent (Some true).

(** Two calls of one category, none of the others, no scope. *)
Definition example_calls : AICalls.t :=
  AICalls.mk [yellow_call_at_10; red_call_at_20] None.

(** A call of the same category with a naive timestamp, and a collection
    that holds it next to a call with an aware one. *)
Definition naive_call_at_15 : AICall.t :=
  AICall.mk DiagnosisEvaluation
    (AIResponse.mk [ResponseValue.mk Green "well"] [])
    "u3" (Naive 15) NoThumbs "clinician" Active None.

Definition mixed_calls : AICalls.t :=
  AICalls.mk [yellow_call_at_10; naive_call_at_15] None.

Definition fhg_input : string :=
  "Full Haemogram (FHG): Result..: Normal, WBC: 7.2, HGB: 13,400".

Definition fhg_output : string :=
  "Full Haemogram (FHG): " +:+ nl +:+ "* Result..: Normal" +:+ nl +:+ "* WBC: 7.2"
  +:+ nl +:+ "* HGB: 13,400" +:+ nl +:+ nl.

(** ** Vocabulary of the further properties *)

(** The number of colons of [s]. *)
Fixpoint colons (s : string) : nat :=
  match s with
  | EmptyString => O
  | String c s' => ((if is_char ":"%char c then 1 else 0) + colons s')%nat
  end.

(** The header that [lab_test_clean] deletes. *)
Definition investigation_header : string := "**Investigations conducted:**" +:+ nl.

(** The text of [lab_test_clean] after its two replacements, cut into blocks. *)
Definition blocks_of (s : string) : list string :=
  str_split (nl +:+ nl)
    (str_replace "::" ":" (str_replace investigation_header "" s)).

(** The bullets of [entries], one after the other. *)
Definition render (entries : list (string * string)) : string :=
  foldr (fun e acc => bullet (fst e) (snd e) +:+ acc) EmptyString entries.

(** An entry whose key goes first. *)
Definition is_result_entry (e : string * string) : Prop := is_result_key (fst e) = true.

(** The entries of [d] whose keys go first, and the others, in their order. *)
Definition result_entries (d : dict) : dict := filter is_result_entry d.

Definition other_entries (d : dict) : dict := filter (fun e => ~ is_result_entry e) d.

(** The entry of [d] under the key [k] (an empty value when there is none). *)
Definition entry_of (d : dict) (k : string) : string * string :=
  (k, match dict_get k d with Ok v => v | Err _ => EmptyString end).

Definition stripped_pairs (d : dict) : Prop :=
  NoDup (dict_keys d)
  /\ Forall (fun e => colons (fst e) = O /\ strip (fst e) = fst e /\ strip (snd e) = snd e) d.

(** The texts of [l], one after the other. *)
Definition join (l : list string) : string := foldr String.append EmptyString l.

(** ** Templates *)

Definition HISTORY_TEMPLATE : string :=
  "**Age:** {age}" +:+ nl +:+
  "**Gender:** {gender}" +:+ nl +:+
  nl +:+
  "**Allergies:** {allergies}" +:+ nl +:+
  "**Social history:** {social_history}" +:+ nl +:+
  "**History of chronic illness:** {chronic_illness}" +:+ nl +:+
  "**Obstetric history:** {obs}" +:+ nl +:+
  nl +:+
  "**Vitals:**" +:+ nl +:+
  "**Height:** {doc_hgt}" +:+ nl +:+
  "**Weight:** {doc_wgt}" +:+ nl +:+
  "**Heart rate:** {doc_bpm}" +:+ nl +:+
  "**Blood pressure:** {doc_bpr}" +:+ nl +:+
  "**Mean upper arm circumference:** {doc_muc}" +:+ nl +:+
  "**Temperature:** {doc_tmp}" +:+ nl +:+
  "**Respiratory rate:** {doc_rr}" +:+ nl +:+
  "**SpO2:** {doc_sp2}" +:+ nl +:+
  nl +:+
  "**Chief complaint:** {cc}" +:+ nl +:+
  nl +:+
  "**Clinical notes:**" +:+ nl +:+
  "{clinical_notes_clean}" +:+ nl +:+
  nl +:+
  "**Structured examinations recorded:** {examination}".

Definition INVESTIGATION_TEMPLATE : string :=
  "**Investigations conducted:**" +:+ nl +:+ "{lab_test_clean}".

Definition DIAGNOSIS_TEMPLATE : string :=
  "**Diagnoses:**" +:+ nl +:+ "{dx}".

Definition TREATMENT_TEMPLATE : string :=
  "**Referrals:**" +:+ nl +:+ "{referrals}" +:+ nl +:+ nl +:+
  "**Medications:**" +:+ nl +:+ "{rx}".

Section Rendering.
(** The type of [float] and its [str], which the embedding takes as given. *)
Context {float : Type} (float_str : float -> string).

(** A value of a dumped model. *)
Inductive value : Type :=
| VStr (s : string)
| VFloat (f : float)
| VNone.

(** [str(v)], as [format] inserts it for an empty format spec. *)
Definition value_str (v : value) : string :=
  match v with
  | VStr s => s
  | VFloat f => float_str f
  | VNone => "None"
  end.

Fixpoint entries_get (name : string) (entries : list (string * value)) : result value :=
  match entries with
  | [] => Err (KeyError name)
  | (k, v) :: entries' => if String.eqb k name then Ok v else entries_get name entries'
  end.

(** [template.format] with the entries as keyword arguments, for a template
    whose replacement fields are plain names: [{{] and [}}] stand for a brace, [{name}] for
    [str(entries[name])]. [field] is the name read so far inside a field. *)
Fixpoint format_go (entries : list (string * value)) (field : option string)
    (s : string) : result string :=
  match field, s with
  | None, EmptyString => Ok EmptyString
  | None, String "{" (String "{" s') => String "{"%char <$> format_go entries None s'
  | None, String "}" (String "}" s') => String "}"%char <$> format_go entries None s'
  | None, String "{" s' => format_go entries (Some EmptyString) s'
  | None, String "}" _ => Err (ValueError "Single '}' encountered in format string")
  | None, String c s' => String c <$> format_go entries None s'
  | Some name, EmptyString => Err (ValueError "expected '}' before end of string")
  | Some name, String "}" s' =>
      v ← entries_get name entries;
      rest ← format_go entries None s';
      Ok (value_str v +:+ rest)
  | Some name, String "{" _ => Err (ValueError "unexpected '{' in field name")
  | Some name, String c s' => format_go entries (Some (name +:+ String c EmptyString)) s'
  end.

Definition str_format (template : string) (entries : list (string * value)) : result string :=
  format_go entries None template.

Definition of_str (o : option string) : value :=
  match o with Some s => VStr s | None => VNone end.

Definition of_float (o : option float) : value :=
  match o with Some f => VFloat f | None => VNone end.

Record ClinicalDocumentation : Type := {
  gender : string;
  age : string;
  allergies : option string;
  cc : option string;
  chronic_illness : option string;
  clinical_notes : option string;
  clinical_notes_clean : option string;
  dx : option string;
  examination : option string;
  lab_test : option string;
  obs : option string;
  referrals : option string;
  rx : option string;
  social_history : option string;
  doc_bpr : option string;
  doc_hgt : option float;
  doc_muc : option string;
  doc_bpm : option float;
  doc_tmp : option float;
  doc_wgt : option float;
  doc_rr : option float;
  doc_sp2 : option float
}.

(** [entry.model_dump()]: the fields in the order of their declaration, and
    then the computed field, whose property is evaluated (and may raise). *)
Definition model_dump (entry : ClinicalDocumentation) : result (list (string * value)) :=
  cleaned ← lab_test_clean (lab_test entry);
  Ok [ ("gender", VStr (gender entry)); ("age", VStr (age entry));
       ("allergies", of_str (allergies entry)); ("cc", of_str (cc entry));
       ("chronic_illness", of_str (chronic_illness entry));
       ("clinical_notes", of_str (clinical_notes entry));
       ("clinical_notes_clean", of_str (clinical_notes_clean entry));
       ("dx", of_str (dx entry)); ("examination", of_str (examination entry));
       ("lab_test", of_str (lab_test entry)); ("obs", of_str (obs entry));
       ("referrals", of_str (referrals entry)); ("rx", of_str (rx entry));
       ("social_history", of_str (social_history entry));
       ("doc_bpr", of_str (doc_bpr entry)); ("doc_hgt", of_float (doc_hgt entry));
       ("doc_muc", of_str (doc_muc entry)); ("doc_bpm", of_float (doc_bpm entry));
       ("doc_tmp", of_float (doc_tmp entry)); ("doc_wgt", of_float (doc_wgt entry));
       ("doc_rr", of_float (doc_rr entry)); ("doc_sp2", of_float (doc_sp2 entry));
       ("lab_test_clean", of_str cleaned) ]%string.

(** The loop [if v is None: entries[k] = "Not recorded"]. *)
Definition not_recorded (v : value) : value :=
  match v with
  | VNone => VStr "Not recorded"
  | _ => v
  end.

Definition format_not_recorded (template : string) (entry : ClinicalDocumentation)
  : result string :=
  entries ← model_dump entry;
  let entries := map (fun kv => (fst kv, not_recorded (snd kv))) entries in
  text ← str_format template entries;
  Ok (strip text).

Definition history (self : ClinicalDocumentation) : result string :=
  format_not_recorded HISTORY_TEMPLATE self.

Definition investigations (self : ClinicalDocumentation) : result string :=
  format_not_recorded INVESTIGATION_TEMPLATE self.

Definition diagnosis (self : ClinicalDocumentation) : result string :=
  format_not_recorded DIAGNOSIS_TEMPLATE self.

Definition treatment (self : ClinicalDocumentation) : result string :=
  format_not_recorded TREATMENT_TEMPLATE self.

(** The text of a field of [str | None] type in a rendering. *)
Definition shown (o : option string) : string :=
  match o with Some s => s | None => "Not recorded" end.

Definition shown_float (o : option float) : string :=
  match o with Some f => float_str f | None => "Not recorded" end.
End Rendering.

(** A record with a laboratory text and nothing else recorded. *)
Definition example_doc (lab : option string) : ClinicalDocumentation (float:=Z) :=
  {| gender := "F"; age := "34"; allergies := None; cc := None;
     chronic_illness := None; clinical_notes := None; clinical_notes_clean := None;
     dx := Some "Malaria"%string; examination := None; lab_test := lab; obs := None;
     referrals := None; rx := Some EmptyString; social_history := None;
     doc_bpr := None; doc_hgt := None; doc_muc := None; doc_bpm := None;
     doc_tmp := None; doc_wgt := None; doc_rr := None; doc_sp2 := None |}.

(** * Proofs *)

(** ** Runs of the embedding *)

Example replace_double_colon :
  str_replace "::" ":" "a:::b::::c" = "a::b::c"%string.
Proof. reflexivity. Qed.

Example split_blank_line :
  str_split (nl +:+ nl) ("a" +:+ nl +:+ nl +:+ nl +:+ "b") = ["a"; nl +:+ "b"]%string.
Proof. reflexivity. Qed.

Example split_once : str_split1 ":" "k: 10:30" = ["k"; " 10:30"]%string.
Proof. reflexivity. Qed.

Example strip_both_ends : strip "  a b  " = "a b"%string.
Proof. reflexivity. Qed.

(** The star gives back one space when the key would otherwise be empty; a
    comma before another comma, or before text without a colon, is kept. *)
Example re_split_backtracks :
  re_split pair_separator "a: 1,  :b, c,d:e,,f:" = ["a: 1"; " :b, c"; "d:e,"; "f:"]%string.
Proof. vm_compute. reflexivity. Qed.

Example re_split_keeps_thousands :
  re_split pair_separator "HGB: 13,400" = ["HGB: 13,400"]%string.
Proof. vm_compute. reflexivity. Qed.

Example result_key_goes_first :
  lab_test_clean (Some "Widal: b: 1, RESULT.: x, a: 2"%string)
  = Ok (Some ("Widal: " +:+ nl +:+ "* RESULT.: x" +:+ nl +:+ "* a: 2"
              +:+ nl +:+ "* b: 1" +:+ nl +:+ nl)).
Proof. vm_compute. reflexivity. Qed.

Example scoped_first_and_final :
  AICalls.first (AICalls.for_rule example_calls DiagnosisEvaluation) = Ok (Some yellow_call_at_10)
  /\ AICalls.final (AICalls.for_rule example_calls DiagnosisEvaluation) = Ok (Some red_call_at_20)
  /\ AICalls.first_color (AICalls.for_rule example_calls DiagnosisEvaluation) = Ok (Some Yellow)
  /\ AICalls.final_color (AICalls.for_rule example_calls DiagnosisEvaluation) = Ok (Some Red)
  /\ AICalls.any_final_color example_calls Green = Ok false.
Proof. repeat split; vm_compute; reflexivity. Qed.

(** The message of [list.index] shows the key as [repr] does: a key with
    an apostrophe stands between double quotes, a line break is escaped. *)
Example index_message_shows_repr :
  list_index "RBC's (Microscopy)" FHG_ORDER
  = Err (ValueError (String dquote "RBC's (Microscopy)" +:+ String dquote " is not in list"))
  /\ list_index ("a" +:+ nl +:+ "b") FHG_ORDER
     = Err (ValueError ("'a" +:+ String backslash "nb' is not in list")).
Proof. split; reflexivity. Qed.

(** An aware timestamp is never ordered against a naive one, whatever their
    positions; two timestamps of one kind are ordered by position. *)
Example datetime_order :
  datetime_lt (Naive 1) (Aware 2)
  = Err (TypeError "can't compare offset-naive and offset-aware datetimes")
  /\ datetime_gt (Aware 2) (Naive 1)
     = Err (TypeError "can't compare offset-naive and offset-aware datetimes")
  /\ datetime_lt (Naive 1) (Naive 2) = Ok true
  /\ datetime_gt (Aware 1) (Aware 2) = Ok false.
Proof. repeat split. Qed.

Example unscoped_final_raises :
  AICalls.final (AICalls.for_rules example_calls [DiagnosisEvaluation; ClinicalNotes])
  = Err (ValueError "The final call is not defined for an AICalls object with no rule").
Proof. reflexivity. Qed.

(** ** The builtins [max] and [min] *)

Section MaxMin.
Context {A : Type} (key : A -> Z).

Lemma first_max_by_upper m l x : first_max_by key m l -> x ∈ l -> key x <= key m.
Proof.
  intros (pre & post & -> & Hpre & Hpost) Hx.
  rewrite elem_of_app, elem_of_cons in Hx.
  rewrite Forall_forall in Hpre, Hpost.
  destruct Hx as [Hx | [-> | Hx]]; [apply Hpre in Hx | | apply Hpost in Hx]; lia.
Qed.

Lemma first_min_by_lower m l x : first_min_by key m l -> x ∈ l -> key m <= key x.
Proof.
  intros (pre & post & -> & Hpre & Hpost) Hx.
  rewrite elem_of_app, elem_of_cons in Hx.
  rewrite Forall_forall in Hpre, Hpost.
  destruct Hx as [Hx | [-> | Hx]]; [apply Hpre in Hx | | apply Hpost in Hx]; lia.
Qed.

Lemma first_max_by_elem m l : first_max_by key m l -> m ∈ l.
Proof. intros (pre & post & -> & _). set_solver. Qed.

Lemma first_min_by_elem m l : first_min_by key m l -> m ∈ l.
Proof. intros (pre & post & -> & _). set_solver. Qed.

Lemma max_from_first b l : first_max_by key (max_from key b l) (b :: l).
Proof.
  revert b. induction l as [|x l IH]; intros b; simpl.
  - exists [], []. repeat split; constructor.
  - destruct (Z.gtb_spec (key x) (key b)) as [Hgt | Hle].
    + pose proof (IH x) as Hx.
      pose proof (first_max_by_upper _ _ x Hx ltac:(left)) as Hup.
      destruct Hx as (pre & post & Heq & Hpre & Hpost).
      exists (b :: pre), post. rewrite Heq. repeat split; auto.
      constructor; [lia | done].
    + destruct (IH b) as (pre & post & Heq & Hpre & Hpost).
      destruct pre as [|b' pre]; simpl in Heq.
      * injection Heq as Hb Hl. exists [], (x :: post).
        rewrite <- Hb in Hpost |- *. rewrite Hl. repeat split; [constructor|].
        constructor; [lia | done].
      * injection Heq as Hb Hl. subst b'.
        exists (b :: x :: pre), post. repeat split; auto.
        { simpl. by rewrite <- Hl. }
        inversion Hpre; subst. constructor; [done|]. constructor; [lia | done].
Qed.

Lemma min_from_first b l : first_min_by key (min_from key b l) (b :: l).
Proof.
  revert b. induction l as [|x l IH]; intros b; simpl.
  - exists [], []. repeat split; constructor.
  - destruct (Z.ltb_spec (key x) (key b)) as [Hlt | Hge].
    + pose proof (IH x) as Hx.
      pose proof (first_min_by_lower _ _ x Hx ltac:(left)) as Hlow.
      destruct Hx as (pre & post & Heq & Hpre & Hpost).
      exists (b :: pre), post. rewrite Heq. repeat split; auto.
      constructor; [lia | done].
    + destruct (IH b) as (pre & post & Heq & Hpre & Hpost).
      destruct pre as [|b' pre]; simpl in Heq.
      * injection Heq as Hb Hl. exists [], (x :: post).
        rewrite <- Hb in Hpost |- *. rewrite Hl. repeat split; [constructor|].
        constructor; [lia | done].
      * injection Heq as Hb Hl. subst b'.
        exists (b :: x :: pre), post. repeat split; auto.
        { simpl. by rewrite <- Hl. }
        inversion Hpre; subst. constructor; [done|]. constructor; [lia | done].
Qed.



Lemma py_max_first x l : exists m, py_max key (x :: l) = Ok m /\ first_max_by key m (x :: l).
Proof. eexists; split; [reflexivity | apply max_from_first]. Qed.

Lemma py_min_first x l : exists m, py_min key (x :: l) = Ok m /\ first_min_by key m (x :: l).
Proof. eexists; split; [reflexivity | apply min_from_first]. Qed.
End MaxMin.

(** ** [max] and [min] over timestamps *)

Lemma same_kind_trans a b c : same_kind a b = true -> same_kind c b = same_kind c a.
Proof. by destruct a, b, c. Qed.


Lemma forallb_same_kind (b b' : AICall.t) (l : list AICall.t) :
  same_kind (AICall.time b') (AICall.time b) = true ->
  forallb (fun x => same_kind (AICall.time x) (AICall.time b')) l
  = forallb (fun x => same_kind (AICall.time x) (AICall.time b)) l.
Proof.
  intros H. induction l as [|x l IH]; simpl; [done|].
  rewrite IH. f_equal. symmetry. by apply same_kind_trans.
Qed.

Lemma forallb_false {A} (f : A -> bool) (l : list A) :
  forallb f l = false -> exists x, x ∈ l /\ f x = false.
Proof.
  induction l as [|x l IH]; simpl; [done|].
  destruct (f x) eqn:Hx; simpl.
  - intros (y & Hy & Hf)%IH. exists y. split; [by right | done].
  - intros _. exists x. split; [by left | done].
Qed.

Lemma forallb_true {A} (f : A -> bool) (l : list A) x :
  forallb f l = true -> x ∈ l -> f x = true.
Proof.
  induction l as [|y l IH]; simpl; [by intros _ ?%elem_of_nil|].
  intros [Hy Hl]%andb_true_iff [->|Hx]%elem_of_cons; auto.
Qed.

(** With timestamps of one kind [max] is the maximum of the positions; with
    both kinds it meets a comparison that raises. *)
Lemma max_of_timestamps (b : AICall.t) (l : list AICall.t) :
  extremum_from datetime_gt AICall.time b l
  = if forallb (fun x => same_kind (AICall.time x) (AICall.time b)) l
    then Ok (max_from stamp b l) else Err datetime_mixed.
Proof.
  revert b. induction l as [|x l IH]; intros b; simpl; [done|].
  assert (datetime_gt (AICall.time x) (AICall.time b)
          = if same_kind (AICall.time x) (AICall.time b)
            then Ok (stamp x >? stamp b) else Err datetime_mixed) as -> by reflexivity.
  destruct (same_kind (AICall.time x) (AICall.time b)) eqn:Hx; [|reflexivity].
  cbn [mbind result_bind andb].
  destruct (stamp x >? stamp b); rewrite IH; [|done].
  by rewrite (forallb_same_kind b x l Hx).
Qed.

Lemma min_of_timestamps (b : AICall.t) (l : list AICall.t) :
  extremum_from datetime_lt AICall.time b l
  = if forallb (fun x => same_kind (AICall.time x) (AICall.time b)) l
    then Ok (min_from stamp b l) else Err datetime_mixed.
Proof.
  revert b. induction l as [|x l IH]; intros b; simpl; [done|].
  assert (datetime_lt (AICall.time x) (AICall.time b)
          = if same_kind (AICall.time x) (AICall.time b)
            then Ok (stamp x <? stamp b) else Err datetime_mixed) as -> by reflexivity.
  destruct (same_kind (AICall.time x) (AICall.time b)) eqn:Hx; [|reflexivity].
  cbn [mbind result_bind andb].
  destruct (stamp x <? stamp b); rewrite IH; [|done].
  by rewrite (forallb_same_kind b x l Hx).
Qed.


(** ** The error monad *)

Lemma mapM_result_ok {A B} (f : A -> result B) (l : list A) :
  Forall (fun x => is_ok (f x) = true) l ->
  exists ys, mapM_result f l = Ok ys /\ Forall2 (fun x y => f x = Ok y) l ys.
Proof.
  induction 1 as [|x l Hx _ (ys & Hys & Hall)]; simpl.
  - exists []. split; [done | constructor].
  - destruct (f x) as [y|] eqn:Hfx; [|done].
    exists (y :: ys). simpl. rewrite Hys. split; [done | by constructor].
Qed.

Lemma Forall2_result_elem {A B} (f : A -> result B) l ys y :
  Forall2 (fun x y => f x = Ok y) l ys ->
  y ∈ ys <-> exists x, x ∈ l /\ f x = Ok y.
Proof.
  induction 1 as [|x y' l ys Hxy _ IH].
  - split; [intros H; inversion H | intros (x & H & _); inversion H].
  - rewrite elem_of_cons, IH. split.
    + intros [-> | (x' & Hx' & Hf)]; [exists x | exists x']; rewrite elem_of_cons; auto.
    + intros (x' & Hx' & Hf). apply elem_of_cons in Hx' as [-> | Hx'].
      * left. congruence.
      * right. eauto.
Qed.

(** ** Payloads and the color of a call *)

Lemma elem_of_all_colors (c : AICall.t) x :
  x ∈ elements
        ((list_to_set (map ResponseValue.severity (AIResponse.responses (AICall.response c))) : gset Color)
         ∪ list_to_set (map RecommendationValue.severity (AIResponse.recommendations (AICall.response c))))
  <-> x ∈ AIResponse.severities (AICall.response c).
Proof.
  unfold AIResponse.severities.
  rewrite elem_of_elements, elem_of_union, !elem_of_list_to_set, elem_of_app. done.
Qed.

Lemma valid_payload_severities p : valid_payload p <-> AIResponse.severities p <> [].
Proof.
  unfold valid_payload, AIResponse.check_nonempty, AIResponse.severities.
  destruct p as [[|r rs] [|c cs]]; simpl; split; done.
Qed.

Lemma first_max_is_max_severity m l l' :
  (forall x, x ∈ l <-> x ∈ l') -> first_max_by Color_value m l -> is_max_severity m l'.
Proof.
  intros Hiff Hm. split.
  - apply Hiff. eapply first_max_by_elem, Hm.
  - intros x Hx. eapply first_max_by_upper; [exact Hm | by apply Hiff].
Qed.

Lemma color_spec (c : AICall.t) :
  valid_payload (AICall.response c) ->
  exists m, AICall.color c = Ok m
    /\ is_max_severity m (AIResponse.severities (AICall.response c)).
Proof.
  intros Hv. apply valid_payload_severities in Hv.
  unfold AICall.color.
  destruct (elements _) as [|x l] eqn:Hel.
  - exfalso. destruct (AIResponse.severities (AICall.response c)) as [|y ys] eqn:Hs; [done|].
    assert (y ∈ @nil Color) as Hin; [|inversion Hin].
    rewrite <- Hel. apply elem_of_all_colors. rewrite Hs. left.
  - destruct (py_max_first Color_value x l) as (m & Hm & Hfirst).
    exists m. split; [done|].
    eapply first_max_is_max_severity; [|exact Hfirst].
    intros y. rewrite <- Hel. apply elem_of_all_colors.
Qed.

Lemma is_max_severity_unique m m' l :
  is_max_severity m l -> is_max_severity m' l -> m = m'.
Proof.
  intros [Hin Hup] [Hin' Hup']. apply Hup in Hin'. apply Hup' in Hin.
  destruct m, m'; simpl in *; (done || lia).
Qed.

(** C5. For every call whose payload is valid (so it has at least one
    finding), [color] returns the greatest severity among the severities of
    all its observation findings and all its recommendation findings. The
    witness below is the example of observations Green and Red with a
    recommendation Yellow, whose color is Red. *)
Theorem color_is_max_severity (c : AICall.t) :
  valid_payload (AICall.response c) ->
  exists m, AICall.color c = Ok m
    /\ is_max_severity m (AIResponse.severities (AICall.response c)).
Proof. apply color_spec. Qed.

Lemma color_is_max_severity_witness :
  valid_payload (AICall.response example_call) /\ AICall.color example_call = Ok Red.
Proof.
  split; [reflexivity|].
  destruct (color_is_max_severity example_call eq_refl) as (m & Hm & Hmax).
  rewrite Hm. f_equal.
  apply (is_max_severity_unique _ _ _ Hmax).
  split; [set_solver|]. intros x _. destruct x; simpl; lia.
Defined.

(** C6. Constructing a payload with no observation and no recommendation
    fails validation, with the message of [check_nonempty]; with at least one
    finding of either kind it succeeds and yields the payload. *)
Theorem payload_rejected_iff_no_finding
    (rs : list ResponseValue.t) (cs : list RecommendationValue.t) :
  match rs, cs with
  | [], [] =>
      AIResponse.new rs cs = Err (ValidationError
        "AIResponse must have at least one response value or at least one recommendation value")
  | _, _ => AIResponse.new rs cs = Ok (AIResponse.mk rs cs)
  end.
Proof. destruct rs, cs; reflexivity. Qed.

Lemma final_scoped_eq cs r :
  AICalls.rule cs = Some r ->
  AICalls.final cs
  = match AICalls.calls cs with
    | [] => Ok None
    | x :: l => if times_comparable (x :: l) then Ok (Some (max_from stamp x l))
                else Err datetime_mixed
    end.
Proof.
  intros Hr. unfold AICalls.final, AICalls._is_empty. rewrite Hr.
  destruct (AICalls.calls cs) as [|x l]; [done|].
  rewrite bool_decide_eq_false_2 by done. simpl. rewrite max_of_timestamps.
  by destruct (forallb _ l).
Qed.

Lemma first_scoped_eq cs r :
  AICalls.rule cs = Some r ->
  AICalls.first cs
  = match AICalls.calls cs with
    | [] => Ok None
    | x :: l => if times_comparable (x :: l) then Ok (Some (min_from stamp x l))
                else Err datetime_mixed
    end.
Proof.
  intros Hr. unfold AICalls.first, AICalls._is_empty. rewrite Hr.
  destruct (AICalls.calls cs) as [|x l]; [done|].
  rewrite bool_decide_eq_false_2 by done. simpl. rewrite min_of_timestamps.
  by destruct (forallb _ l).
Qed.

(** A call that [final] or [first] returns was found by comparisons that
    did not raise. *)
Lemma final_returns cs c :
  AICalls.final cs = Ok (Some c) ->
  times_comparable (AICalls.calls cs) = true /\ first_max_by stamp c (AICalls.calls cs).
Proof.
  destruct (AICalls.rule cs) as [r|] eqn:Hr.
  2:{ unfold AICalls.final. by rewrite Hr. }
  rewrite (final_scoped_eq cs r Hr).
  destruct (AICalls.calls cs) as [|x l]; [done|].
  destruct (times_comparable (x :: l)); [|done].
  intros [= <-]. split; [done | apply max_from_first].
Qed.

Lemma first_returns cs c :
  AICalls.first cs = Ok (Some c) ->
  times_comparable (AICalls.calls cs) = true /\ first_min_by stamp c (AICalls.calls cs).
Proof.
  destruct (AICalls.rule cs) as [r|] eqn:Hr.
  2:{ unfold AICalls.first. by rewrite Hr. }
  rewrite (first_scoped_eq cs r Hr).
  destruct (AICalls.calls cs) as [|x l]; [done|].
  destruct (times_comparable (x :: l)); [|done].
  intros [= <-]. split; [done | apply min_from_first].
Qed.



(** ** Filtering *)

Lemma filter_keeps_exactly {A} (P : A -> Prop) `{!forall x, Decision (P x)} (l : list A) :
  keeps_exactly P l (filter P l).
Proof.
  repeat split.
  - apply sublist_filter.
  - apply Forall_forall. intros x Hx. by apply list_elem_of_filter in Hx as [? _].
  - intros l' Hsub Hall. induction Hsub as [|x l1 l2 Hsub IH|x l1 l2 Hsub IH].
    + constructor.
    + apply Forall_cons in Hall as [Hx Hall].
      rewrite filter_cons_True by done. constructor. by apply IH.
    + destruct (decide (P x)).
      * rewrite filter_cons_True by done. constructor. by apply IH.
      * rewrite filter_cons_False by done. by apply IH.
Qed.

Lemma keeps_exactly_unique {A} (P : A -> Prop) (l r r' : list A) :
  keeps_exactly P l r -> keeps_exactly P l r' -> r = r'.
Proof.
  intros (Hs & Hp & Hg) (Hs' & Hp' & Hg').
  apply (anti_symm sublist); auto.
Qed.

Lemma keeps_exactly_elem {A} (P : A -> Prop) (l r : list A) x :
  keeps_exactly P l r -> x ∈ r <-> x ∈ l /\ P x.
Proof.
  intros (Hs & Hp & Hg). split.
  - intros Hx. split; [by eapply elem_of_sublist | by eapply Forall_forall in Hp].
  - intros [Hx HP]. apply singleton_sublist_l, Hg.
    + by apply singleton_sublist_l.
    + by repeat constructor.
Qed.

(** C9. [for_rule cs r] is a collection scoped to [r] whose calls are
    exactly the calls of [cs] of category [r], in their order;
    [for_rules cs rules] is a collection without scope whose calls are
    exactly the calls of [cs] whose category is in [rules], in their order.
    Both are functions of [cs] that build a new collection: [cs] itself is
    not changed. *)
Theorem for_rule_for_rules_spec (cs : AICalls.t) :
  (forall r,
     AICalls.rule (AICalls.for_rule cs r) = Some r
     /\ keeps_exactly (fun c => AICall.rule c = r)
          (AICalls.calls cs) (AICalls.calls (AICalls.for_rule cs r))
     /\ (forall c, c ∈ AICalls.calls (AICalls.for_rule cs r)
                   <-> c ∈ AICalls.calls cs /\ AICall.rule c = r))
  /\ (forall rules,
     AICalls.rule (AICalls.for_rules cs rules) = None
     /\ keeps_exactly (fun c => AICall.rule c ∈ rules)
          (AICalls.calls cs) (AICalls.calls (AICalls.for_rules cs rules))
     /\ (forall c, c ∈ AICalls.calls (AICalls.for_rules cs rules)
                   <-> c ∈ AICalls.calls cs /\ AICall.rule c ∈ rules)).
Proof.
  split.
  - intros r. split; [reflexivity|]. split; [apply filter_keeps_exactly|].
    intros c. apply (keeps_exactly_elem (fun c => AICall.rule c = r)).
    apply filter_keeps_exactly.
  - intros rules. split; [reflexivity|]. split; [apply filter_keeps_exactly|].
    intros c. apply (keeps_exactly_elem (fun c => AICall.rule c ∈ rules)).
    apply filter_keeps_exactly.
Qed.

(** ** Category-scoped queries *)

Lemma members_complete (r : ClinicalDecisionRule) : r ∈ ClinicalDecisionRule_members.
Proof. destruct r; set_solver. Qed.

Lemma valid_calls_for_rule cs r : valid_calls cs -> valid_calls (AICalls.for_rule cs r).
Proof.
  unfold valid_calls. simpl. rewrite !Forall_forall.
  intros H c Hc. apply H. by apply list_elem_of_filter in Hc as [_ ?].
Qed.

Lemma final_color_scoped cs r :
  valid_calls cs -> AICalls.rule cs = Some r ->
  times_comparable (AICalls.calls cs) = true ->
  match AICalls.calls cs with
  | [] => AICalls.final_color cs = Ok None
  | _ :: _ => exists c m, AICalls.final cs = Ok (Some c) /\ AICall.color c = Ok m
                /\ AICalls.final_color cs = Ok (Some m)
  end.
Proof.
  intros Hv Hr Hcmp. unfold AICalls.final_color. rewrite (final_scoped_eq cs r Hr).
  unfold valid_calls in Hv. rewrite Forall_forall in Hv.
  destruct (AICalls.calls cs) as [|x l]; [done|]. rewrite Hcmp.
  pose proof (max_from_first stamp x l) as Hmax.
  apply first_max_by_elem in Hmax.
  destruct (color_spec _ (Hv _ Hmax)) as (m & Hm & _).
  exists (max_from stamp x l), m. cbn [mbind result_bind]. rewrite Hm. done.
Qed.

Lemma first_color_scoped cs r :
  valid_calls cs -> AICalls.rule cs = Some r ->
  times_comparable (AICalls.calls cs) = true ->
  match AICalls.calls cs with
  | [] => AICalls.first_color cs = Ok None
  | _ :: _ => exists c m, AICalls.first cs = Ok (Some c) /\ AICall.color c = Ok m
                /\ AICalls.first_color cs = Ok (Some m)
  end.
Proof.
  intros Hv Hr Hcmp. unfold AICalls.first_color. rewrite (first_scoped_eq cs r Hr).
  unfold valid_calls in Hv. rewrite Forall_forall in Hv.
  destruct (AICalls.calls cs) as [|x l]; [done|]. rewrite Hcmp.
  pose proof (min_from_first stamp x l) as Hmin.
  apply first_min_by_elem in Hmin.
  destruct (color_spec _ (Hv _ Hmin)) as (m & Hm & _).
  exists (min_from stamp x l), m. cbn [mbind result_bind]. rewrite Hm. done.
Qed.

Lemma final_color_mixed cs r :
  AICalls.rule cs = Some r -> times_comparable (AICalls.calls cs) = false ->
  AICalls.final_color cs = Err datetime_mixed.
Proof.
  intros Hr Hcmp. unfold AICalls.final_color. rewrite (final_scoped_eq cs r Hr).
  destruct (AICalls.calls cs) as [|x l]; [done|]. by rewrite Hcmp.
Qed.

Lemma first_color_mixed cs r :
  AICalls.rule cs = Some r -> times_comparable (AICalls.calls cs) = false ->
  AICalls.first_color cs = Err datetime_mixed.
Proof.
  intros Hr Hcmp. unfold AICalls.first_color. rewrite (first_scoped_eq cs r Hr).
  destruct (AICalls.calls cs) as [|x l]; [done|]. by rewrite Hcmp.
Qed.

Lemma final_color_for_rule_ok cs r :
  valid_calls cs ->
  times_comparable (AICalls.calls (AICalls.for_rule cs r)) = true ->
  is_ok (AICalls.final_color (AICalls.for_rule cs r)) = true.
Proof.
  intros Hv Hcmp.
  pose proof (final_color_scoped (AICalls.for_rule cs r) r
                (valid_calls_for_rule _ r Hv) eq_refl Hcmp) as H.
  destruct (AICalls.calls (AICalls.for_rule cs r)).
  - by rewrite H.
  - destruct H as (c & m & _ & _ & ->). done.
Qed.

Lemma first_color_for_rule_ok cs r :
  valid_calls cs ->
  times_comparable (AICalls.calls (AICalls.for_rule cs r)) = true ->
  is_ok (AICalls.first_color (AICalls.for_rule cs r)) = true.
Proof.
  intros Hv Hcmp.
  pose proof (first_color_scoped (AICalls.for_rule cs r) r
                (valid_calls_for_rule _ r Hv) eq_refl Hcmp) as H.
  destruct (AICalls.calls (AICalls.for_rule cs r)).
  - by rewrite H.
  - destruct H as (c & m & _ & _ & ->). done.
Qed.

Lemma category_times_comparable_at cs r :
  category_times_comparable cs = true ->
  times_comparable (AICalls.calls (AICalls.for_rule cs r)) = true.
Proof.
  intros H.
  apply (forallb_true (fun r => times_comparable (AICalls.calls (AICalls.for_rule cs r)))
           ClinicalDecisionRule_members r H).
  apply members_complete.
Qed.

(** The shape shared by [any_final_color] and [any_first_color]. *)
Lemma any_color_of (q : AICalls.t -> result (option Color)) (cs : AICalls.t) (color : Color) :
  (forall r, is_ok (q (AICalls.for_rule cs r)) = true) ->
  exists b,
    (l ← mapM_result (fun r => q (AICalls.for_rule cs r)) ClinicalDecisionRule_members;
     Ok (bool_decide (Some color ∈ (list_to_set l : gset (option Color))))) = Ok b
    /\ (b = true <-> exists r, r ∈ ClinicalDecisionRule_members
                       /\ q (AICalls.for_rule cs r) = Ok (Some color)).
Proof.
  intros Hok.
  destruct (mapM_result_ok (fun r => q (AICalls.for_rule cs r)) ClinicalDecisionRule_members)
    as (l & Hl & Hall).
  { apply Forall_forall. intros r _. apply Hok. }
  rewrite Hl. eexists. split; [reflexivity|].
  rewrite bool_decide_eq_true, elem_of_list_to_set.
  apply (Forall2_result_elem _ _ _ (Some color) Hall).
Qed.

(** When every item returns or raises [e], and some item raises, the list
    comprehension raises [e]. *)
Lemma mapM_result_err {A B} (f : A -> result B) (l : list A) (e : exn) :
  (forall x, x ∈ l -> is_ok (f x) = true \/ f x = Err e) ->
  (exists x, x ∈ l /\ f x = Err e) ->
  mapM_result f l = Err e.
Proof.
  induction l as [|y l IH]; intros Hall (x & Hx & Hfx); [by apply elem_of_nil in Hx|].
  simpl. destruct (Hall y ltac:(left)) as [Hy|Hy].
  - destruct (f y) as [b|] eqn:Hfy; [|done]. cbn [mbind result_bind].
    rewrite IH; [done | |].
    + intros z Hz. apply Hall. by right.
    + apply elem_of_cons in Hx as [->|Hx]; [congruence|]. eauto.
  - by rewrite Hy.
Qed.

(** The shape of both queries when some category mixes the two kinds. *)
Lemma any_color_of_mixed (q : AICalls.t -> result (option Color)) (cs : AICalls.t)
    (color : Color) :
  (forall r, if times_comparable (AICalls.calls (AICalls.for_rule cs r))
             then is_ok (q (AICalls.for_rule cs r)) = true
             else q (AICalls.for_rule cs r) = Err datetime_mixed) ->
  category_times_comparable cs = false ->
  (l ← mapM_result (fun r => q (AICalls.for_rule cs r)) ClinicalDecisionRule_members;
   Ok (bool_decide (Some color ∈ (list_to_set l : gset (option Color)))))
  = Err datetime_mixed.
Proof.
  intros Hq (r & Hr & Hmixed)%forallb_false.
  rewrite (mapM_result_err _ _ datetime_mixed); [done | |].
  - intros r' _. specialize (Hq r').
    destruct (times_comparable (AICalls.calls (AICalls.for_rule cs r'))); auto.
  - exists r. split; [done|]. specialize (Hq r). by rewrite Hmixed in Hq.
Qed.

(** A collection whose one category holds an aware and a naive timestamp:
    the two queries return no boolean, they raise [TypeError]. *)
Lemma mixed_category_raises :
  valid_calls mixed_calls
  /\ AICalls.any_final_color mixed_calls Red
     = Err (TypeError "can't compare offset-naive and offset-aware datetimes")
  /\ AICalls.any_first_color mixed_calls Red
     = Err (TypeError "can't compare offset-naive and offset-aware datetimes").
Proof. split; [repeat constructor | split; reflexivity]. Qed.

(** C3, amended. For every collection of valid calls, scoped or not, in
    which the timestamps within each category are all naive or all aware,
    and every color, [any_final_color] (respectively [any_first_color])
    returns a boolean, and it is [True] exactly when some member of
    [ClinicalDecisionRule] has a sub-collection [for_rule] whose
    [final_color] (respectively [first_color]) is that color. Every member
    of the enum is visited, and a category without a call contributes
    [None], which is no color. When some category mixes naive and aware
    timestamps, both queries raise [TypeError]. *)
Theorem any_color_spec (cs : AICalls.t) (color : Color) :
  valid_calls cs ->
  (category_times_comparable cs = true ->
   exists b_final b_first,
     AICalls.any_final_color cs color = Ok b_final
     /\ AICalls.any_first_color cs color = Ok b_first
     /\ (b_final = true <->
         exists r, r ∈ ClinicalDecisionRule_members
           /\ AICalls.final_color (AICalls.for_rule cs r) = Ok (Some color))
     /\ (b_first = true <->
         exists r, r ∈ ClinicalDecisionRule_members
           /\ AICalls.first_color (AICalls.for_rule cs r) = Ok (Some color))
     /\ (forall r, r ∈ ClinicalDecisionRule_members)
     /\ (forall r, AICalls.calls (AICalls.for_rule cs r) = [] ->
           AICalls.final_color (AICalls.for_rule cs r) = Ok None
           /\ AICalls.first_color (AICalls.for_rule cs r) = Ok None))
  /\ (category_times_comparable cs = false ->
      AICalls.any_final_color cs color
      = Err (TypeError "can't compare offset-naive and offset-aware datetimes")
      /\ AICalls.any_first_color cs color
         = Err (TypeError "can't compare offset-naive and offset-aware datetimes")).
Proof.
  intros Hv. split.
  - intros Hcmp.
    destruct (any_color_of AICalls.final_color cs color) as (bl & Hbl & Hiffl).
    { intros r. apply final_color_for_rule_ok; [done|]. by apply category_times_comparable_at. }
    destruct (any_color_of AICalls.first_color cs color) as (bf & Hbf & Hifff).
    { intros r. apply first_color_for_rule_ok; [done|]. by apply category_times_comparable_at. }
    exists bl, bf. repeat split; try done; try tauto.
    + apply members_complete.
    + pose proof (final_color_scoped (AICalls.for_rule cs r) r
                    (valid_calls_for_rule _ r Hv) eq_refl
                    (category_times_comparable_at cs r Hcmp)) as Hf.
      by rewrite H in Hf.
    + pose proof (first_color_scoped (AICalls.for_rule cs r) r
                    (valid_calls_for_rule _ r Hv) eq_refl
                    (category_times_comparable_at cs r Hcmp)) as Hf.
      by rewrite H in Hf.
  - intros Hmixed. split.
    + apply (any_color_of_mixed AICalls.final_color cs color); [|done].
      intros r. destruct (times_comparable _) eqn:Hr.
      * by apply final_color_for_rule_ok.
      * by apply (final_color_mixed _ r).
    + apply (any_color_of_mixed AICalls.first_color cs color); [|done].
      intros r. destruct (times_comparable _) eqn:Hr.
      * by apply first_color_for_rule_ok.
      * by apply (first_color_mixed _ r).
Qed.

Lemma example_calls_valid : valid_calls example_calls.
Proof. repeat constructor. Qed.

Lemma any_color_spec_witness :
  valid_calls example_calls
  /\ category_times_comparable example_calls = true
  /\ AICalls.any_final_color example_calls Red = Ok true
  /\ AICalls.any_first_color example_calls Red = Ok false.
Proof.
  split; [exact example_calls_valid|]. split; [reflexivity|].
  destruct (proj1 (any_color_spec example_calls Red example_calls_valid) eq_refl)
    as (b_final & b_first & Hfinal & Hfirst & Hiff_final & Hiff_first & _).
  rewrite Hfinal, Hfirst.
  assert (b_final = true) as Htrue.
  { apply Hiff_final. exists DiagnosisEvaluation. split; [apply members_complete | reflexivity]. }
  assert (b_first = false) as Hfalse.
  { destruct b_first; [|done]. exfalso.
    destruct (proj1 Hiff_first eq_refl) as (r & _ & Hr).
    destruct r; vm_compute in Hr; discriminate. }
  by rewrite Htrue, Hfalse.
Defined.

(** ** Existential queries *)

Lemma colors_of_valid_calls (calls : list AICall.t) :
  Forall (fun c => valid_payload (AICall.response c)) calls ->
  exists per_call,
    mapM_result AICall.color calls = Ok per_call
    /\ Forall2 (fun c m => is_max_severity m (AIResponse.severities (AICall.response c)))
         calls per_call.
Proof.
  induction 1 as [|c l Hc _ (ms & Hms & Hall)]; simpl.
  - exists []. split; [done | constructor].
  - destruct (color_spec c Hc) as (m & Hm & Hmax).
    exists (m :: ms). rewrite Hm. simpl. rewrite Hms. split; [done | by constructor].
Qed.

(** The greatest of the per-call maxima is the greatest severity overall. *)
Lemma maxima_elem (lists : list (list Color)) (maxima : list Color) (m : Color) :
  Forall2 (fun l x => is_max_severity x l) lists maxima ->
  m ∈ maxima -> m ∈ concat lists.
Proof.
  induction 1 as [|l x ls xs [Hx _] _ IH]; intros Hin; [inversion Hin|].
  simpl. rewrite elem_of_app.
  apply elem_of_cons in Hin as [-> | Hin]; auto.
Qed.

Lemma maxima_upper (lists : list (list Color)) (maxima : list Color) (m : Color) :
  Forall2 (fun l x => is_max_severity x l) lists maxima ->
  (forall x, x ∈ maxima -> Color_value x <= Color_value m) ->
  forall y, y ∈ concat lists -> Color_value y <= Color_value m.
Proof.
  induction 1 as [|l x ls xs [_ Hx] _ IH]; intros Hup y Hy; [inversion Hy|].
  simpl in Hy. rewrite elem_of_app in Hy. destruct Hy as [Hy | Hy].
  - apply Hx in Hy. specialize (Hup x ltac:(left)). lia.
  - apply IH; [|done]. intros z Hz. apply Hup. by right.
Qed.

Lemma max_of_maxima (lists : list (list Color)) (maxima : list Color) (m : Color) :
  Forall2 (fun l x => is_max_severity x l) lists maxima ->
  is_max_severity m maxima -> is_max_severity m (concat lists).
Proof.
  intros Hall [Hin Hup]. split; [by eapply maxima_elem | by eapply maxima_upper].
Qed.

(** C10. For every collection of valid calls, [worst_color] is [None] exactly
    when the collection has no call; otherwise it is the greatest of the
    colors of the calls, which is the greatest severity over every finding
    of every call. *)
Theorem worst_color_spec (cs : AICalls.t) :
  valid_calls cs ->
  (AICalls.worst_color cs = Ok None <-> AICalls.calls cs = [])
  /\ (AICalls.calls cs <> [] ->
      exists m per_call,
        AICalls.worst_color cs = Ok (Some m)
        /\ mapM_result AICall.color (AICalls.calls cs) = Ok per_call
        /\ is_max_severity m per_call
        /\ is_max_severity m (AICalls.all_severities cs)).
Proof.
  intros Hv. destruct cs as [calls o]. unfold valid_calls in Hv. simpl in *.
  destruct calls as [|c l].
  { split; [done | congruence]. }
  destruct (colors_of_valid_calls _ Hv) as (per_call & Hper & Hall).
  assert (exists m, AICalls.worst_color (AICalls.mk (c :: l) o) = Ok (Some m)
                    /\ is_max_severity m per_call) as (m & Hm & Hmax).
  { unfold AICalls.worst_color, AICalls.colors_seen, AICalls._is_empty.
    cbn [AICalls.calls]. rewrite (bool_decide_eq_false_2 (c :: l = [])) by done.
    rewrite Hper. cbn [mbind result_bind].
    destruct (elements _) as [|x xs] eqn:Hel.
    - exfalso. inversion Hall as [|? m0 ? ms ? ? Heq1 Heq2]; subst.
      assert (m0 ∈ @nil Color) as Hin; [|inversion Hin].
      rewrite <- Hel, elem_of_elements, elem_of_list_to_set. left.
    - rewrite bool_decide_eq_false_2 by done.
      destruct (py_max_first Color_value x xs) as (m & -> & Hfirst).
      exists m. split; [done|].
      eapply first_max_is_max_severity; [|exact Hfirst].
      intros y. by rewrite <- Hel, elem_of_elements, elem_of_list_to_set. }
  split.
  - rewrite Hm. split; [congruence | done].
  - intros _. exists m, per_call. repeat split; try done; try apply Hmax.
    + unfold AICalls.all_severities. simpl AICalls.calls.
      eapply maxima_elem; [|apply Hmax]. by apply Forall2_fmap_l.
    + unfold AICalls.all_severities. simpl AICalls.calls.
      eapply maxima_upper; [|apply Hmax]. by apply Forall2_fmap_l.
Qed.

Lemma worst_color_spec_witness :
  valid_calls example_calls
  /\ (AICalls.worst_color example_calls = Ok None <-> AICalls.calls example_calls = [])
  /\ (AICalls.calls example_calls <> [] ->
      exists m per_call,
        AICalls.worst_color example_calls = Ok (Some m)
        /\ mapM_result AICall.color (AICalls.calls example_calls) = Ok per_call
        /\ is_max_severity m per_call
        /\ is_max_severity m (AICalls.all_severities example_calls)).
Proof.
  split; [exact example_calls_valid|].
  exact (worst_color_spec example_calls example_calls_valid).
Defined.

(** ** Finding validation *)

Lemma Color_getitem_names s :
  Color_getitem s =
    if decide (s = "Green"%string) then Ok Green
    else if decide (s = "Yellow"%string) then Ok Yellow
    else if decide (s = "Red"%string) then Ok Red
    else Err (KeyError s).
Proof.
  unfold Color_getitem.
  destruct (String.eqb_spec s "Green") as [->|H1]; [reflexivity|].
  destruct (String.eqb_spec s "Yellow") as [->|H2]; [reflexivity|].
  destruct (String.eqb_spec s "Red") as [->|H3]; [reflexivity|].
  by rewrite !decide_False.
Qed.

(** C4. Validation of the severity is the same for the observation and the
    recommendation variant. A string that is one of the names Green, Yellow,
    Red yields the member; every other string fails with
    "Invalid severity: " followed by the string. A value that is already a
    member of [Color] is not a string: the validator returns [None] for it
    and the field is rejected. *)
Theorem severity_validation_spec :
  (forall v r a,
     ResponseValue.severity <$> ResponseValue.new v r
     = RecommendationValue.severity <$> RecommendationValue.new v a)
  /\ (forall s r,
       ResponseValue.severity <$> ResponseValue.new (RStr s) r =
         if decide (s = "Green"%string) then Ok Green
         else if decide (s = "Yellow"%string) then Ok Yellow
         else if decide (s = "Red"%string) then Ok Red
         else Err (ValidationError ("Invalid severity: " +:+ s)))
  /\ (forall c r,
       ResponseValue.new (RColor c) r = Err (ValidationError "Input should be 1, 2 or 3")).
Proof.
  split; [|split].
  - intros v r a. unfold ResponseValue.new, RecommendationValue.new,
      ResponseValue.validate_severity, RecommendationValue.validate_severity.
    destruct (global_validate_severity v) as [[c|]|[]]; reflexivity.
  - intros s r. unfold ResponseValue.new, ResponseValue.validate_severity,
      global_validate_severity.
    rewrite Color_getitem_names.
    repeat (destruct (decide _); [reflexivity|]). reflexivity.
  - reflexivity.
Qed.

(** C8 as stated fails on the empty string: it is not mapped to an empty
    output, its only block has no colon and unpacking the split raises. *)
Lemma lab_test_clean_empty_string :
  lab_test_clean (Some EmptyString)
  = Err (ValueError "not enough values to unpack (expected 2, got 1)")
  /\ lab_test_clean (Some EmptyString) <> Ok (Some EmptyString)
  /\ lab_test_clean (Some EmptyString) <> Ok None.
Proof. repeat split; discriminate. Qed.

(** C8, amended. The normalizer maps an absent input ([None]) to an absent
    output ([None]) and the input "Not recorded" to "Not recorded"
    unchanged; on the empty string it raises [ValueError]. *)
Theorem lab_test_clean_passthrough :
  lab_test_clean None = Ok None
  /\ lab_test_clean (Some "Not recorded"%string) = Ok (Some "Not recorded"%string)
  /\ lab_test_clean (Some EmptyString)
     = Err (ValueError "not enough values to unpack (expected 2, got 1)").
Proof. repeat split. Qed.

(** ** [sorted] *)

Section SortingFacts.
Context {K A : Type} (ltb : K -> K -> bool).
Hypothesis ltb_asym : forall a b, ltb a b = true -> ltb b a = false.
Hypothesis geb_trans : forall a b c, ltb b a = false -> ltb c b = false -> ltb c a = false.

Lemma insert_keyed_perm (x : K * A) l : insert_keyed ltb x l ≡ₚ x :: l.
Proof.
  induction l as [|y l IH]; simpl; [done|].
  destruct (ltb (fst y) (fst x)); [|done].
  rewrite IH. apply perm_swap.
Qed.

Lemma sort_keyed_perm (l : list (K * A)) : sort_keyed ltb l ≡ₚ l.
Proof.
  induction l as [|x l IH]; simpl; [done|].
  by rewrite insert_keyed_perm, IH.
Qed.

Lemma insert_keyed_sorted (x : K * A) l :
  StronglySorted (inorder ltb) l -> StronglySorted (inorder ltb) (insert_keyed ltb x l).
Proof.
  induction 1 as [|y l Hs IH Hy]; simpl.
  - repeat constructor.
  - destruct (ltb (fst y) (fst x)) eqn:Hlt.
    + constructor; [done|].
      rewrite insert_keyed_perm. constructor; [|done].
      by apply ltb_asym.
    + constructor; [by constructor|].
      constructor; [done|].
      eapply Forall_impl; [exact Hy|]. intros z Hz. unfold inorder in *.
      by eapply geb_trans.
Qed.

Lemma sort_keyed_sorted (l : list (K * A)) : StronglySorted (inorder ltb) (sort_keyed ltb l).
Proof.
  induction l as [|x l IH]; simpl; [constructor | by apply insert_keyed_sorted].
Qed.

Lemma sorted_by_ok (key : A -> result K) (l : list A) (ks : list K) :
  mapM_result key l = Ok ks ->
  exists r, sorted_by ltb key l = Ok r
    /\ r ≡ₚ l
    /\ StronglySorted
         (fun a b => exists ka kb, key a = Ok ka /\ key b = Ok kb /\ ltb kb ka = false) r.
Proof.
  intros Hks. unfold sorted_by. rewrite Hks. simpl. eexists. split; [reflexivity|].
  assert (Forall2 (fun x k => key x = Ok k) l ks) as Hall.
  { clear -Hks. revert ks Hks. induction l as [|x l IH]; simpl; intros ks Hks.
    - injection Hks as <-. constructor.
    - destruct (key x) as [k|] eqn:Hk; [|done]. simpl in Hks.
      destruct (mapM_result key l) as [ks'|]; [|done]. simpl in Hks.
      injection Hks as <-. constructor; auto. }
  assert (Forall (fun p => key (snd p) = Ok (fst p)) (zip ks l)) as Hzip.
  { clear -Hall. induction Hall; simpl; constructor; auto. }
  split.
  - rewrite sort_keyed_perm. rewrite snd_zip; [done|].
    apply Forall2_length in Hall. lia.
  - rewrite <- (sort_keyed_perm (zip ks l)) in Hzip.
    pose proof (sort_keyed_sorted (zip ks l)) as Hs.
    induction Hs as [|p ps Hs IH Hp]; simpl; [constructor|].
    apply Forall_cons in Hzip as [Hk Hzip].
    constructor; [by apply IH|].
    apply Forall_fmap. rewrite Forall_forall in Hp, Hzip |- *.
    intros q Hq. simpl. exists (fst p), (fst q). repeat split; auto.
    by apply Hp.
Qed.

Lemma sorted_by_err (key : A -> result K) (pre post : list A) (x : A) (e : exn) :
  Forall (fun y => is_ok (key y) = true) pre -> key x = Err e ->
  sorted_by ltb key (pre ++ x :: post) = Err e.
Proof.
  intros Hpre Hx. unfold sorted_by.
  assert (mapM_result key (pre ++ x :: post) = Err e) as ->; [|done].
  induction Hpre as [|y pre Hy _ IH]; simpl.
  - by rewrite Hx.
  - destruct (key y); [|done]. simpl. by rewrite IH.
Qed.
End SortingFacts.

(** ** The order of strings *)

Lemma ascii_compare_N a b : Ascii.compare a b = N.compare (N_of_ascii a) (N_of_ascii b).
Proof. reflexivity. Qed.

Lemma ascii_compare_eq a b : Ascii.compare a b = Eq -> a = b.
Proof.
  rewrite ascii_compare_N, N.compare_eq_iff. intros H.
  by rewrite <- (ascii_N_embedding a), <- (ascii_N_embedding b), H.
Qed.

Lemma string_compare_lt_trans a b c :
  String.compare a b = Lt -> String.compare b c = Lt -> String.compare a c = Lt.
Proof.
  revert b c. induction a as [|x a IH]; intros [|y b] [|z c]; simpl; try done.
  rewrite !ascii_compare_N.
  destruct (N.compare_spec (N_of_ascii x) (N_of_ascii y)) as [Hxy|Hxy|Hxy]; [| |done];
  destruct (N.compare_spec (N_of_ascii y) (N_of_ascii z)) as [Hyz|Hyz|Hyz]; try done;
  destruct (N.compare_spec (N_of_ascii x) (N_of_ascii z)) as [Hxz|Hxz|Hxz];
    try done; try lia.
  apply IH.
Qed.

Lemma string_ltb_asym a b : String.ltb a b = true -> String.ltb b a = false.
Proof.
  unfold String.ltb. rewrite (String.compare_antisym a b).
  by destruct (String.compare b a).
Qed.

Lemma string_geb_trans a b c :
  String.ltb b a = false -> String.ltb c b = false -> String.ltb c a = false.
Proof.
  unfold String.ltb. intros Hba Hcb.
  destruct (String.compare c a) eqn:Hca; try done. exfalso.
  destruct (String.compare b a) eqn:Eba; try done.
  - apply String.compare_eq_iff in Eba. subst b. by rewrite Hca in Hcb.
  - destruct (String.compare c b) eqn:Ecb; try done.
    + apply String.compare_eq_iff in Ecb. subst c. by rewrite Hca in Eba.
    + (* a < b, b < c, c < a *)
      assert (String.compare a b = Lt) as Hab by (rewrite String.compare_antisym, Eba; done).
      assert (String.compare b c = Lt) as Hbc by (rewrite String.compare_antisym, Ecb; done).
      pose proof (string_compare_lt_trans _ _ _ Hab Hbc) as Hac.
      rewrite String.compare_antisym, Hca in Hac. done.
Qed.

Lemma string_ltb_false_leb a b : String.ltb b a = false <-> String.leb a b = true.
Proof.
  unfold String.ltb, String.leb. rewrite (String.compare_antisym a b).
  destruct (String.compare b a); simpl; split; done.
Qed.

(** ** [list.index] *)

Lemma list_index_ok x l : x ∈ l -> is_ok (list_index x l) = true.
Proof.
  induction l as [|y l IH]; intros Hx; [inversion Hx|]. simpl.
  destruct (String.eqb_spec y x) as [->|Hne]; [done|].
  apply elem_of_cons in Hx as [->|Hx]; [done|].
  by destruct (list_index x l); [|discriminate (IH Hx)].
Qed.

Lemma list_index_err x l :
  x ∉ l -> list_index x l = Err (ValueError (py_repr x +:+ " is not in list")).
Proof.
  induction l as [|y l IH]; intros Hx; [done|]. simpl.
  rewrite not_elem_of_cons in Hx. destruct Hx as [Hne Hx].
  destruct (String.eqb_spec y x) as [->|_]; [done|].
  by rewrite IH.
Qed.

(** [l.index(x)] is the position of the first [x]. *)
Lemma list_index_lookup x l i :
  list_index x l = Ok i <-> l !! i = Some x /\ forall j, (j < i)%nat -> l !! j <> Some x.
Proof.
  revert i. induction l as [|y l IH]; intros i; simpl.
  - split; [done | intros [H _]; by destruct i].
  - destruct (String.eqb_spec y x) as [->|Hne].
    + split.
      * intros [= <-]. split; [done | lia].
      * intros [Hi Hfirst]. destruct i as [|i]; [done|].
        exfalso. apply (Hfirst O); [lia | done].
    + split.
      * intros H. destruct (list_index x l) as [k|e] eqn:Hk; simpl in H; [|done].
        injection H as <-. destruct (proj1 (IH k) eq_refl) as [Hl Hfirst].
        split; [done|].
        intros [|j] Hj; simpl; [congruence | apply Hfirst; lia].
      * intros [Hi Hfirst]. destruct i as [|i]; simpl in Hi; [congruence|].
        assert (list_index x l = Ok i) as ->; [|done].
        apply IH. split; [done|]. intros j Hj. apply (Hfirst (S j)). lia.
Qed.

Lemma nat_ltb_asym a b : Nat.ltb a b = true -> Nat.ltb b a = false.
Proof. rewrite Nat.ltb_lt, Nat.ltb_ge. lia. Qed.

Lemma nat_geb_trans a b c :
  Nat.ltb b a = false -> Nat.ltb c b = false -> Nat.ltb c a = false.
Proof. rewrite !Nat.ltb_ge. lia. Qed.

Lemma StronglySorted_impl {A} (R R' : A -> A -> Prop) l :
  (forall a b, R a b -> R' a b) -> StronglySorted R l -> StronglySorted R' l.
Proof.
  intros Himpl. induction 1 as [|x l Hs IH Hx]; constructor; [done|].
  eapply Forall_impl; [exact Hx | auto].
Qed.

Lemma first_outside (order keys : list string) :
  ~ Forall (fun k => k ∈ order) keys ->
  exists pre k post, keys = pre ++ k :: post
    /\ Forall (fun k => k ∈ order) pre /\ k ∉ order.
Proof.
  induction keys as [|x keys IH]; intros Hnot; [by destruct Hnot|].
  destruct (decide (x ∈ order)) as [Hx|Hx].
  - destruct IH as (pre & k & post & -> & Hpre & Hk).
    { intros Hall. apply Hnot. by constructor. }
    exists (x :: pre), k, post. repeat split; [by constructor | done].
  - exists [], x, keys. repeat split; [constructor | done].
Qed.

(** C7 as stated fails: the investigation is in the table, the key [Foo] is
    not in its entry, and the normalizer raises instead of falling back. *)
Lemma untabulated_key_raises :
  INVESTIGATION_SUBFIELD_SORT_ORDER !! "Full Haemogram (FHG)"%string = Some FHG_ORDER
  /\ lab_test_clean (Some "Full Haemogram (FHG): WBC: 7.2, Foo: 1"%string)
     = Err (ValueError "'Foo' is not in list").
Proof. split; vm_compute; reflexivity. Qed.

(** C7, amended. When the investigation name is in the table and every
    remaining key is in its entry, the keys are put in the order of their
    index in the entry; when some remaining key is not in the entry, the
    normalizer raises [ValueError] (that of [list.index] for the first such
    key, whose message shows the [repr] of the key); when the name is not in
    the table, the keys are put in the order of [str]. In both successful
    cases the result is a rearrangement of the remaining keys. Two runs of
    the normalizer show the two orders. *)
Theorem sorted_keys_spec :
  (forall (investigation_name : string) (d : dict),
  match INVESTIGATION_SUBFIELD_SORT_ORDER !! investigation_name with
  | Some order =>
      (Forall (fun k => k ∈ order) (dict_keys d) ->
       exists ks, sorted_keys investigation_name d = Ok ks
         /\ ks ≡ₚ dict_keys d
         /\ StronglySorted (by_index order) ks)
      /\ (~ Forall (fun k => k ∈ order) (dict_keys d) ->
          exists msg, sorted_keys investigation_name d = Err (ValueError msg))
      /\ (forall pre k post,
            dict_keys d = pre ++ k :: post ->
            Forall (fun k => k ∈ order) pre -> k ∉ order ->
            sorted_keys investigation_name d
            = Err (ValueError (py_repr k +:+ " is not in list")))
  | None =>
      exists ks, sorted_keys investigation_name d = Ok ks
        /\ ks ≡ₚ dict_keys d
        /\ StronglySorted alphabetical ks
  end)
  /\ lab_test_clean (Some "Full Haemogram (FHG): HGB: 13, PCT: 0.2, WBC: 7"%string)
     = Ok (Some ("Full Haemogram (FHG): " +:+ nl +:+ "* WBC: 7" +:+ nl +:+ "* HGB: 13"
                 +:+ nl +:+ "* PCT: 0.2" +:+ nl +:+ nl))
  /\ lab_test_clean (Some "Malaria RDT: b: 1, a: 2, B: 3"%string)
     = Ok (Some ("Malaria RDT: " +:+ nl +:+ "* B: 3" +:+ nl +:+ "* a: 2"
                 +:+ nl +:+ "* b: 1" +:+ nl +:+ nl)).
Proof.
  split; [|split; vm_compute; reflexivity].
  intros investigation_name d. unfold sorted_keys.
  destruct (INVESTIGATION_SUBFIELD_SORT_ORDER !! investigation_name) as [order|].
  - assert (forall pre k post,
              dict_keys d = pre ++ k :: post ->
              Forall (fun k => k ∈ order) pre -> k ∉ order ->
              sorted_by Nat.ltb (fun x => list_index x order) (dict_keys d)
              = Err (ValueError (py_repr k +:+ " is not in list"))) as Herr.
    { intros pre k post Hkeys Hpre Hk. rewrite Hkeys.
      apply sorted_by_err; [|by apply list_index_err].
      eapply Forall_impl; [exact Hpre|]. intros x Hx. by apply list_index_ok. }
    split; [|split; [|exact Herr]].
    + intros Hall.
      destruct (mapM_result_ok (fun x => list_index x order) (dict_keys d)) as (idx & Hidx & _).
      { eapply Forall_impl; [exact Hall|]. intros k Hk. by apply list_index_ok. }
      destruct (sorted_by_ok Nat.ltb nat_ltb_asym nat_geb_trans _ _ _ Hidx)
        as (r & Hr & Hperm & Hs).
      exists r. repeat split; [done | done |].
      eapply StronglySorted_impl; [|exact Hs].
      intros a b (i & j & Hi & Hj & Hle). exists i, j.
      apply Nat.ltb_ge in Hle. done.
    + intros (pre & k & post & Hkeys & Hpre & Hk)%first_outside.
      eexists. by eapply Herr.
  - destruct (mapM_result_ok (@Ok string) (dict_keys d)) as (ks & Hks & _).
    { by apply Forall_forall. }
    destruct (sorted_by_ok String.ltb string_ltb_asym string_geb_trans _ _ _ Hks)
      as (r & Hr & Hperm & Hs).
    exists r. repeat split; [done | done |].
    eapply StronglySorted_impl; [|exact Hs].
    intros a b (ka & kb & [= <-] & [= <-] & Hle). by apply string_ltb_false_leb.
Qed.

(** ** Strings *)

Lemma string_app_assoc (a b c : string) : (a +:+ b) +:+ c = a +:+ (b +:+ c).
Proof. induction a as [|x a IH]; simpl; [done | by f_equal]. Qed.

Lemma string_app_nil_r (a : string) : a +:+ "" = a.
Proof. induction a as [|x a IH]; simpl; [done | by f_equal]. Qed.

Lemma string_length_app (a b : string) :
  String.length (a +:+ b) = (String.length a + String.length b)%nat.
Proof. induction a as [|x a IH]; simpl; [done | by f_equal]. Qed.

Lemma string_app_inv_length (a b a' b' : string) :
  a +:+ b = a' +:+ b' -> String.length a = String.length a' -> a = a' /\ b = b'.
Proof.
  revert a'. induction a as [|x a IH]; intros [|x' a']; simpl; try done.
  intros [= -> Heq] [= Hlen]. destruct (IH _ Heq Hlen) as [-> ->]. done.
Qed.

(** ** The pair separator *)

Lemma rmatch_colon s :
  rmatch colon_re s =
    match s with
    | String c s' => if Ascii.eqb c ":"%char then Some s' else None
    | EmptyString => None
    end.
Proof. reflexivity. Qed.

Lemma rmatch_key_cons c s :
  rmatch key_re (String c s) =
    if not_comma_colon c then
      match rmatch colon_re s with
      | Some e => Some e
      | None => rmatch key_re s
      end
    else None.
Proof. simpl. destruct (not_comma_colon c); [|done]. by destruct s. Qed.

Lemma rmatch_space_cons c s :
  rmatch space_re (String c s) =
    if is_space c then
      match rmatch space_re s with
      | Some e => Some e
      | None => rmatch look_re (String c s)
      end
    else rmatch look_re (String c s).
Proof. reflexivity. Qed.

Lemma rmatch_look s :
  rmatch look_re s = match rmatch key_re s with Some _ => Some s | None => None end.
Proof. reflexivity. Qed.

Lemma rmatch_pair_separator s :
  rmatch pair_separator s =
    match s with
    | String c s' => if Ascii.eqb c ","%char then rmatch space_re s' else None
    | EmptyString => None
    end.
Proof. reflexivity. Qed.

Lemma not_comma_colon_colon : not_comma_colon ":"%char = false.
Proof. reflexivity. Qed.

Lemma key_re_spec t e :
  rmatch key_re t = Some e <->
  exists run, t = run +:+ ":" +:+ e
    /\ run <> EmptyString /\ string_forall not_comma_colon run = true.
Proof.
  revert e. induction t as [|c t IH]; intros e.
  { split; [done|]. intros ([|x run] & Heq & Hne & _); done. }
  rewrite rmatch_key_cons. destruct (not_comma_colon c) eqn:Hc.
  2:{ split; [done|]. intros ([|x run] & Heq & Hne & Hall); [done|].
      simpl in Heq, Hall. injection Heq as <- _. by rewrite Hc in Hall. }
  rewrite rmatch_colon. destruct t as [|c' t].
  { split; [done|].
    intros ([|x [|y run]] & Heq & Hne & _); simpl in Heq; done. }
  destruct (Ascii.eqb_spec c' ":"%char) as [->|Hc'].
  - split.
    + intros [= <-]. exists (String c ""). simpl. by rewrite Hc.
    + intros ([|x [|y run]] & Heq & Hne & Hall); [done| |].
      * simpl in Heq. by injection Heq as _ ->.
      * simpl in Heq, Hall. injection Heq as _ <- _.
        rewrite not_comma_colon_colon in Hall.
        by rewrite andb_false_r in Hall.
  - rewrite IH. split.
    + intros (run & Heq & Hne & Hall). exists (String c run).
      simpl. rewrite Heq, Hc, Hall. done.
    + intros ([|x [|y run]] & Heq & Hne & Hall); [congruence| |].
      * simpl in Heq. congruence.
      * simpl in Heq, Hall. injection Heq as _ -> ->.
        exists (String y run). split; [reflexivity|]. split; [done|].
        by apply andb_true_iff in Hall as [_ Hall].
Qed.

Lemma starts_key_iff t : starts_key t <-> exists e, rmatch key_re t = Some e.
Proof.
  unfold starts_key. split.
  - intros (run & tail & H). exists tail. apply key_re_spec. eauto.
  - intros (e & H). apply key_re_spec in H as (run & H). eauto.
Qed.

Lemma look_re_spec t e : rmatch look_re t = Some e <-> e = t /\ starts_key t.
Proof.
  rewrite rmatch_look, starts_key_iff.
  destruct (rmatch key_re t) as [e'|]; split.
  - intros [= <-]. eauto.
  - by intros [-> _].
  - done.
  - by intros [_ [? ?]].
Qed.

Lemma space_re_complete ws e :
  string_forall is_space ws = true -> starts_key e ->
  exists e', rmatch space_re (ws +:+ e) = Some e'.
Proof.
  intros Hws He. induction ws as [|c ws IH].
  - change ("" +:+ e) with e. destruct e as [|c e].
    { destruct He as ([|x run] & tail & Heq & Hne & _); done. }
    rewrite rmatch_space_cons.
    assert (rmatch look_re (String c e) = Some (String c e)) as Hlook
      by (by apply look_re_spec).
    rewrite Hlook. destruct (is_space c); [|eauto].
    destruct (rmatch space_re e); eauto.
  - simpl in Hws. apply andb_true_iff in Hws as [Hc Hws].
    change (String c ws +:+ e) with (String c (ws +:+ e)).
    rewrite rmatch_space_cons, Hc. destruct (IH Hws) as (e' & ->). eauto.
Qed.

Lemma space_re_sound s e : rmatch space_re s = Some e -> spaces_before s e.
Proof.
  revert e. induction s as [|c s IH]; intros e; [done|].
  rewrite rmatch_space_cons.
  assert (rmatch look_re (String c s) = Some e ->
          (forall ws' e', is_space c = true -> s = ws' +:+ e' ->
             string_forall is_space ws' = true -> starts_key e' -> False) ->
          spaces_before (String c s) e) as Hlook.
  { intros [-> He]%look_re_spec Hno. exists EmptyString. repeat split; try done.
    intros [|x ws'] e' Heq Hws' He'; simpl; [lia|]. exfalso.
    simpl in Heq. injection Heq as <- Heq. simpl in Hws'.
    apply andb_true_iff in Hws' as [Hx Hws']. by eapply (Hno ws' e'). }
  destruct (is_space c) eqn:Hc.
  - destruct (rmatch space_re s) as [e1|] eqn:Hs.
    + intros [= <-]. destruct (IH _ eq_refl) as (ws & Heq & Hws & He & Hmax).
      exists (String c ws). simpl. rewrite Hc, Hws. repeat split; try done.
      { by rewrite Heq. }
      intros [|x ws'] e' Heq' Hws' He'; simpl; [lia|].
      simpl in Heq'. injection Heq' as _ Heq'. simpl in Hws'.
      apply andb_true_iff in Hws' as [_ Hws'].
      specialize (Hmax _ _ Heq' Hws' He'). lia.
    + intros H. apply Hlook; [done|].
      intros ws' e' _ Heq Hws' He'.
      destruct (space_re_complete ws' e' Hws' He') as (e'' & He'').
      rewrite <- Heq in He''. congruence.
  - intros H. apply Hlook; [done|]. intros ws' e' Hc'. done.
Qed.

Lemma spaces_before_unique s e e' : spaces_before s e -> spaces_before s e' -> e = e'.
Proof.
  intros (ws & Heq & Hws & He & Hmax) (ws' & Heq' & Hws' & He' & Hmax').
  pose proof (Hmax _ _ Heq' Hws' He') as H1.
  pose proof (Hmax' _ _ Heq Hws He) as H2.
  rewrite Heq in Heq'.
  apply string_app_inv_length in Heq' as [_ ?]; [done | lia].
Qed.

Lemma space_re_spec s e : rmatch space_re s = Some e <-> spaces_before s e.
Proof.
  split; [apply space_re_sound|].
  intros Hsp. pose proof Hsp as (ws & -> & Hws & He & _).
  destruct (space_re_complete ws e Hws He) as (e' & He').
  rewrite He'. f_equal. apply space_re_sound in He'.
  eapply spaces_before_unique; eauto.
Qed.

Lemma pair_separator_spec s e : rmatch pair_separator s = Some e <-> separator_at s e.
Proof.
  rewrite rmatch_pair_separator. unfold separator_at. destruct s as [|c s].
  { split; [done | by intros (? & ? & _)]. }
  destruct (Ascii.eqb_spec c ","%char) as [->|Hc].
  - rewrite space_re_spec. unfold spaces_before. split.
    + intros (ws & -> & H). exists ws. split; [reflexivity|].
      destruct H as (? & ? & Hmax). repeat split; try done.
    + intros (ws & Heq & H). simpl in Heq. injection Heq as ->.
      exists ws. split; [done|]. done.
  - split; [done|]. intros (ws & Heq & _). simpl in Heq. congruence.
Qed.

Lemma string_drop_app (a b : string) : string_drop (String.length a) (a +:+ b) = b.
Proof. induction a as [|x a IH]; simpl; [by destruct b | done]. Qed.

Lemma re_split_go_skip r k s :
  (k <= String.length s)%nat -> re_split_go r k s = re_split_go r 0 (string_drop k s).
Proof.
  revert k. induction s as [|c s IH]; intros [|k] Hk; simpl in *; try done; try lia.
  apply IH. lia.
Qed.

Lemma re_split_at_separator ws e :
  separator_at (String ","%char (ws +:+ e)) e ->
  string_forall is_space ws = true ->
  re_split pair_separator (String ","%char (ws +:+ e))
  = EmptyString :: re_split pair_separator e.
Proof.
  intros Hsep Hws. apply pair_separator_spec in Hsep.
  unfold re_split. cbn [re_split_go]. rewrite Hsep.
  replace (String.length (String "," (ws +:+ e)) - String.length e)%nat
    with (S (String.length ws)).
  2:{ simpl. rewrite string_length_app. lia. }
  f_equal. rewrite re_split_go_skip by (rewrite string_length_app; lia).
  by rewrite string_drop_app.
Qed.

Lemma re_split_no_separator c s :
  rmatch pair_separator (String c s) = None ->
  re_split pair_separator (String c s) = push_char c (re_split pair_separator s).
Proof. intros H. unfold re_split. cbn [re_split_go]. by rewrite H. Qed.

Lemma separator_at_inv s e :
  separator_at s e -> exists ws, s = String ","%char (ws +:+ e)
                        /\ string_forall is_space ws = true.
Proof. intros (ws & -> & Hws & _). eauto. Qed.

Lemma re_split_spec s : split_at_separators s (re_split pair_separator s).
Proof.
  remember (String.length s) as n eqn:Hn. revert s Hn.
  induction n as [n IH] using lt_wf_ind. intros s Hn.
  destruct s as [|c s].
  { apply split_last. intros [|x pre] suf e Heq Hsep; [|done].
    simpl in Heq. subst suf. by destruct Hsep as (? & ? & _). }
  destruct (rmatch pair_separator (String c s)) as [e|] eqn:Hm.
  - pose proof Hm as Hsep. apply pair_separator_spec in Hsep.
    destruct (separator_at_inv _ _ Hsep) as (ws & Heq & Hws).
    rewrite Heq in Hsep |- *. rewrite re_split_at_separator by done.
    apply (split_next EmptyString _ e).
    + intros [|x p1] p2 e' Hp; simpl in Hp; by subst.
    + done.
    + apply (IH (String.length e)); [|done].
      subst n. rewrite Heq. simpl. rewrite string_length_app. lia.
  - rewrite re_split_no_separator by done.
    assert (forall e, ~ separator_at (String c s) e) as Hhead.
    { intros e He. apply pair_separator_spec in He. congruence. }
    pose proof (IH (String.length s) ltac:(subst n; simpl; lia) s eq_refl) as Hs.
    inversion Hs as [s0 Hno Hs0 Hl | pre suf e chunks Hno Hsep Hrest Hs0 Hl].
    + simpl. apply split_last. intros [|x pre] suf e Heq; simpl in Heq.
      * subst suf. apply Hhead.
      * injection Heq as _ Heq. by eapply Hno.
    + simpl. apply (split_next (String c pre) suf e); [|done|done].
      intros [|x p1] p2 e' Hp Hp2; simpl in Hp.
      * subst p2. simpl. rewrite Hs0. apply Hhead.
      * injection Hp as _ Hp. by eapply Hno.
Qed.

(** ** [split(":", 1)] *)

Lemma partition_first_colon s :
  match partition_first ":" s with
  | Some (k, v) => s = k +:+ ":" +:+ v /\ string_forall not_colon k = true
  | None => string_forall not_colon s = true
  end.
Proof.
  induction s as [|c s IH]; [done|].
  cbn [partition_first String.prefix].
  destruct (ascii_dec ":" c) as [<-|Hc].
  - simpl. by destruct s.
  - assert (not_colon c = true) as Hnc.
    { unfold not_colon, is_char. by destruct (Ascii.eqb_spec c ":"%char) as [->|]. }
    destruct (partition_first ":" s) as [[k v]|]; simpl; rewrite Hnc.
    + destruct IH as [-> Hk]. done.
    + done.
Qed.

Lemma str_split1_colon chunk :
  match str_split1 ":" chunk with
  | [k; v] => chunk = k +:+ ":" +:+ v /\ string_forall not_colon k = true
  | [whole] => whole = chunk /\ string_forall not_colon chunk = true
  | _ => False
  end.
Proof.
  unfold str_split1. pose proof (partition_first_colon chunk) as H.
  by destruct (partition_first ":" chunk) as [[k v]|].
Qed.

(** C1. The pattern of [re.split] matches at a comma exactly when the comma
    is followed by whitespace and then by a run of characters, none a comma
    or a colon, that ends in a colon; the pieces of [re.split] are cut at
    these commas and nowhere else; a piece is cut at its first colon only.
    On the Full Haemogram example the pieces are the three pairs, the value
    of HGB is kept as 13,400, and the output names the investigation, then
    the bullet of Result.., then WBC and HGB in the order of the table. *)
Theorem pair_separator_and_fhg_example :
  (forall s e, rmatch pair_separator s = Some e <-> separator_at s e)
  /\ (forall s, split_at_separators s (re_split pair_separator s))
  /\ (forall chunk,
        match str_split1 ":" chunk with
        | [k; v] => chunk = k +:+ ":" +:+ v /\ string_forall not_colon k = true
        | [whole] => whole = chunk /\ string_forall not_colon chunk = true
        | _ => False
        end)
  /\ re_split pair_separator "Result..: Normal, WBC: 7.2, HGB: 13,400"
     = ["Result..: Normal"; "WBC: 7.2"; "HGB: 13,400"]%string
  /\ parse_pairs "Result..: Normal, WBC: 7.2, HGB: 13,400"
     = Ok [("Result..", "Normal"); ("WBC", "7.2"); ("HGB", "13,400")]%string
  /\ lab_test_clean (Some fhg_input) = Ok (Some fhg_output).
Proof.
  split; [exact pair_separator_spec|].
  split; [exact re_split_spec|].
  split; [exact str_split1_colon|].
  repeat split; vm_compute; reflexivity.
Qed.

(** * Further properties *)

(** ** The colors seen *)

Lemma colors_seen_valid (cs : AICalls.t) :
  valid_calls cs -> AICalls.calls cs <> [] ->
  exists per_call,
    mapM_result AICall.color (AICalls.calls cs) = Ok per_call
    /\ Forall2 (fun c m => AICall.color c = Ok m) (AICalls.calls cs) per_call
    /\ AICalls.colors_seen cs = Ok (Some (list_to_set per_call))
    /\ elements (list_to_set per_call : gset Color) <> [].
Proof.
  intros Hv Hne.
  destruct (mapM_result_ok AICall.color (AICalls.calls cs)) as (per_call & Hper & Hall).
  { eapply Forall_impl; [exact Hv|]. intros c Hc.
    by destruct (color_spec c Hc) as (m & -> & _). }
  exists per_call. split; [done|]. split; [done|]. split.
  - unfold AICalls.colors_seen, AICalls._is_empty.
    rewrite bool_decide_eq_false_2 by done. by rewrite Hper.
  - intros Hel. apply elements_empty_inv in Hel.
    destruct Hall as [|c m calls ms _ _]; [done|].
    assert (m ∈ (list_to_set (m :: ms) : gset Color)) as Hin by set_solver.
    rewrite Hel in Hin. set_solver.
Qed.

Lemma colors_seen_empty (cs : AICalls.t) :
  AICalls.calls cs = [] -> AICalls.colors_seen cs = Ok None.
Proof.
  intros H. unfold AICalls.colors_seen, AICalls._is_empty.
  by rewrite bool_decide_eq_true_2.
Qed.

Lemma worst_color_valid (cs : AICalls.t) :
  valid_calls cs -> AICalls.calls cs <> [] ->
  exists w per_call,
    Forall2 (fun c m => AICall.color c = Ok m) (AICalls.calls cs) per_call
    /\ AICalls.colors_seen cs = Ok (Some (list_to_set per_call))
    /\ elements (list_to_set per_call : gset Color) <> []
    /\ AICalls.worst_color cs = Ok (Some w)
    /\ is_max_severity w per_call.
Proof.
  intros Hv Hne.
  destruct (colors_seen_valid cs Hv Hne) as (per_call & _ & Hall & Hseen & Hel).
  unfold AICalls.worst_color. rewrite Hseen. cbn [mbind result_bind].
  rewrite bool_decide_eq_false_2 by done.
  destruct (elements _) as [|x xs] eqn:Hxs; [done|].
  destruct (py_max_first Color_value x xs) as (w & -> & Hfirst).
  exists w, per_call.
  split; [done|]. split; [done|]. split; [by rewrite Hxs|]. split; [done|]. split.
  - apply (elem_of_list_to_set (C:=gset Color)).
    apply elem_of_elements. rewrite Hxs. by eapply first_max_by_elem.
  - intros y Hy. eapply first_max_by_upper; [exact Hfirst|].
    rewrite <- Hxs. apply elem_of_elements. by apply elem_of_list_to_set.
Qed.

Lemma worst_color_empty (cs : AICalls.t) :
  AICalls.calls cs = [] -> AICalls.worst_color cs = Ok None.
Proof. intros H. unfold AICalls.worst_color. by rewrite colors_seen_empty. Qed.

Lemma ever_had_color_valid (cs : AICalls.t) (color : Color) :
  valid_calls cs -> AICalls.calls cs <> [] ->
  exists b, AICalls.ever_had_color cs color = Ok (Some b)
    /\ (b = true <->
        exists call, call ∈ AICalls.calls cs /\ AICall.color call = Ok color).
Proof.
  intros Hv Hne.
  destruct (colors_seen_valid cs Hv Hne) as (per_call & _ & Hall & Hseen & Hel).
  unfold AICalls.ever_had_color. rewrite Hseen. cbn [mbind result_bind].
  rewrite bool_decide_eq_false_2 by done.
  eexists. split; [reflexivity|].
  rewrite bool_decide_eq_true, elem_of_list_to_set.
  apply (Forall2_result_elem _ _ _ color Hall).
Qed.

Lemma ever_had_color_empty (cs : AICalls.t) (color : Color) :
  AICalls.calls cs = [] -> AICalls.ever_had_color cs color = Ok None.
Proof. intros H. unfold AICalls.ever_had_color. by rewrite colors_seen_empty. Qed.

(** X1. [ever_had_color] on a collection of valid calls: [None] when there is no
    call; otherwise a boolean that is [True] exactly when some call of the
    collection has that color. *)
Theorem ever_had_color_spec (cs : AICalls.t) (color : Color) :
  valid_calls cs ->
  match AICalls.calls cs with
  | [] => AICalls.ever_had_color cs color = Ok None
  | _ :: _ =>
      exists b, AICalls.ever_had_color cs color = Ok (Some b)
        /\ (b = true <->
            exists call, call ∈ AICalls.calls cs /\ AICall.color call = Ok color)
  end.
Proof.
  intros Hv. destruct (AICalls.calls cs) as [|c l] eqn:Hcalls.
  - by apply ever_had_color_empty.
  - rewrite <- Hcalls. apply ever_had_color_valid; [done|]. by rewrite Hcalls.
Qed.

Lemma ever_had_color_spec_witness :
  valid_calls example_calls
  /\ AICalls.ever_had_color example_calls Yellow = Ok (Some true)
  /\ AICalls.ever_had_color example_calls Green = Ok (Some false).
Proof.
  split; [exact example_calls_valid|].
  split.
  - destruct (ever_had_color_spec example_calls Yellow example_calls_valid)
      as (b & Hb & Hiff).
    rewrite Hb. do 2 f_equal. apply Hiff.
    exists yellow_call_at_10. split; [left | reflexivity].
  - destruct (ever_had_color_spec example_calls Green example_calls_valid)
      as (b & Hb & Hiff).
    rewrite Hb. do 2 f_equal. destruct b; [|done]. exfalso.
    destruct (proj1 Hiff eq_refl) as (call & Hin & Hcall).
    apply elem_of_cons in Hin as [-> | Hin]; [discriminate Hcall|].
    apply elem_of_cons in Hin as [-> | Hin]; [discriminate Hcall | inversion Hin].
Defined.

(** The top of the scale is seen exactly when it is the worst. *)
Lemma red_elem_iff_max w l : is_max_severity w l -> Red ∈ l <-> w = Red.
Proof.
  intros [Hin Hup]. split.
  - intros HR. apply Hup in HR. destruct w; simpl in HR; (done || lia).
  - by intros <-.
Qed.

Lemma yellow_elem_iff_max w l :
  is_max_severity w l -> Red ∉ l -> Yellow ∈ l <-> w <> Green.
Proof.
  intros [Hin Hup] Hred. split.
  - intros HY. apply Hup in HY. destruct w; simpl in HY; (done || lia).
  - intros Hw. destruct w; done.
Qed.

(** X2. On a collection of valid calls, [ever_red] is [worst_color] compared with
    Red and [ever_red_yellow] is [worst_color] compared with Green: all three
    are [None] together, and otherwise [ever_red] says that the worst color is
    Red and [ever_red_yellow] that it is not Green. *)
Theorem ever_red_is_worst_red (cs : AICalls.t) :
  valid_calls cs ->
  exists worst,
    AICalls.worst_color cs = Ok worst
    /\ AICalls.ever_red cs = Ok ((fun w => bool_decide (w = Red)) <$> worst)
    /\ AICalls.ever_red_yellow cs = Ok ((fun w => bool_decide (w <> Green)) <$> worst).
Proof.
  intros Hv. destruct (decide (AICalls.calls cs = [])) as [Hnil|Hne].
  { exists None. unfold AICalls.ever_red, AICalls.ever_red_yellow.
    by rewrite worst_color_empty, !ever_had_color_empty. }
  destruct (worst_color_valid cs Hv Hne) as (w & per_call & Hall & Hseen & Hel & Hw & Hmax).
  exists (Some w). split; [done|].
  assert (forall c, AICalls.ever_had_color cs c = Ok (Some (bool_decide (c ∈ per_call)))) as Hever.
  { intros c. unfold AICalls.ever_had_color. rewrite Hseen. cbn [mbind result_bind].
    rewrite bool_decide_eq_false_2 by done. do 2 f_equal.
    apply bool_decide_ext, elem_of_list_to_set. }
  unfold AICalls.ever_red, AICalls.ever_red_yellow. rewrite !Hever.
  cbn [mbind result_bind fmap option_fmap option_map].
  split.
  - do 2 f_equal. apply bool_decide_ext. by apply red_elem_iff_max.
  - destruct (decide (Red ∈ per_call)) as [HR|HR].
    + rewrite (bool_decide_eq_true_2 _ HR). simpl. do 2 f_equal. symmetry.
      apply bool_decide_eq_true_2. apply (red_elem_iff_max _ _ Hmax) in HR. by subst.
    + rewrite (bool_decide_eq_false_2 _ HR). simpl. do 2 f_equal.
      apply bool_decide_ext. by apply yellow_elem_iff_max.
Qed.

Lemma ever_red_is_worst_red_witness :
  valid_calls example_calls
  /\ AICalls.worst_color example_calls = Ok (Some Red)
  /\ AICalls.ever_red example_calls = Ok (Some true)
  /\ AICalls.ever_red_yellow example_calls = Ok (Some true).
Proof.
  split; [exact example_calls_valid|].
  destruct (ever_red_is_worst_red example_calls example_calls_valid)
    as (worst & Hw & Hred & Hry).
  assert (worst = Some Red) as Heq.
  { assert (AICalls.worst_color example_calls = Ok (Some Red)) as H by (vm_compute; reflexivity).
    congruence. }
  subst worst. by rewrite Hw, Hred, Hry.
Defined.

(** ** First and final color *)

Lemma Color_value_inj a b : Color_value a = Color_value b -> a = b.
Proof. by destruct a, b. Qed.

Lemma Color_eqb_decide (a b : Color) :
  (Color_value a =? Color_value b) = bool_decide (a = b).
Proof.
  destruct (Z.eqb_spec (Color_value a) (Color_value b)) as [H|H].
  - apply Color_value_inj in H. by rewrite bool_decide_eq_true_2.
  - rewrite bool_decide_eq_false_2; [done|]. by intros ->.
Qed.

Lemma Color_truthy_true c : AICalls.Color_truthy c = true.
Proof. by destruct c. Qed.

Lemma final_is_color_of cs oc color :
  AICalls.final_color cs = Ok oc ->
  AICalls.final_is_color cs color = Ok ((fun fc => bool_decide (fc = color)) <$> oc).
Proof.
  intros H. unfold AICalls.final_is_color. rewrite H. cbn [mbind result_bind].
  destruct oc as [fc|]; [|done]. by rewrite Color_truthy_true, Color_eqb_decide.
Qed.

Lemma first_is_color_of cs oc color :
  AICalls.first_color cs = Ok oc ->
  AICalls.first_is_color cs color = Ok ((fun fc => bool_decide (fc = color)) <$> oc).
Proof.
  intros H. unfold AICalls.first_is_color. rewrite H. cbn [mbind result_bind].
  destruct oc as [fc|]; [|done]. by rewrite Color_truthy_true, Color_eqb_decide.
Qed.

Lemma final_color_scoped_ok cs r :
  valid_calls cs -> AICalls.rule cs = Some r ->
  times_comparable (AICalls.calls cs) = true ->
  exists oc, AICalls.final_color cs = Ok oc /\ (oc = None <-> AICalls.calls cs = []).
Proof.
  intros Hv Hr Hcmp. pose proof (final_color_scoped cs r Hv Hr Hcmp) as H.
  destruct (AICalls.calls cs) as [|c l].
  - exists None. done.
  - destruct H as (c' & m & _ & _ & H). exists (Some m). done.
Qed.

Lemma first_color_scoped_ok cs r :
  valid_calls cs -> AICalls.rule cs = Some r ->
  times_comparable (AICalls.calls cs) = true ->
  exists oc, AICalls.first_color cs = Ok oc /\ (oc = None <-> AICalls.calls cs = []).
Proof.
  intros Hv Hr Hcmp. pose proof (first_color_scoped cs r Hv Hr Hcmp) as H.
  destruct (AICalls.calls cs) as [|c l].
  - exists None. done.
  - destruct H as (c' & m & _ & _ & H). exists (Some m). done.
Qed.

(** X3. On a scoped collection of valid calls whose timestamps are all naive
    or all aware, [final_color] and [first_color] return, and are [None]
    exactly when there is no call; [final_is_color],
    [first_is_color], [final_red] and [first_red] compare that color with
    the given one, and [final_red_yellow] says that the final color is not
    Green; each is [None], not [False], when there is no call. *)
Theorem final_first_is_color_spec (cs : AICalls.t) (r : ClinicalDecisionRule) :
  valid_calls cs -> AICalls.rule cs = Some r ->
  times_comparable (AICalls.calls cs) = true ->
  exists final_c first_c,
    AICalls.final_color cs = Ok final_c
    /\ AICalls.first_color cs = Ok first_c
    /\ (final_c = None <-> AICalls.calls cs = [])
    /\ (first_c = None <-> AICalls.calls cs = [])
    /\ (forall color,
          AICalls.final_is_color cs color
          = Ok ((fun fc => bool_decide (fc = color)) <$> final_c)
          /\ AICalls.first_is_color cs color
             = Ok ((fun fc => bool_decide (fc = color)) <$> first_c))
    /\ AICalls.final_red cs = Ok ((fun fc => bool_decide (fc = Red)) <$> final_c)
    /\ AICalls.first_red cs = Ok ((fun fc => bool_decide (fc = Red)) <$> first_c)
    /\ AICalls.final_red_yellow cs
       = Ok ((fun fc => bool_decide (fc <> Green)) <$> final_c).
Proof.
  intros Hv Hr Hcmp.
  destruct (final_color_scoped_ok cs r Hv Hr Hcmp) as (final_c & Hfinal & Hfn).
  destruct (first_color_scoped_ok cs r Hv Hr Hcmp) as (first_c & Hfirst & Hfs).
  exists final_c, first_c.
  split; [done|]. split; [done|]. split; [done|]. split; [done|].
  split; [|split; [|split]].
  - intros color. split; [by apply final_is_color_of | by apply first_is_color_of].
  - by apply final_is_color_of.
  - by apply first_is_color_of.
  - unfold AICalls.final_red_yellow.
    rewrite !(final_is_color_of cs final_c) by done. cbn [mbind result_bind].
    destruct final_c as [[]|]; reflexivity.
Qed.

Lemma final_first_is_color_spec_witness :
  valid_calls (AICalls.for_rule example_calls DiagnosisEvaluation)
  /\ times_comparable (AICalls.calls (AICalls.for_rule example_calls DiagnosisEvaluation)) = true
  /\ AICalls.final_red (AICalls.for_rule example_calls DiagnosisEvaluation) = Ok (Some true)
  /\ AICalls.first_red (AICalls.for_rule example_calls DiagnosisEvaluation) = Ok (Some false)
  /\ AICalls.final_red_yellow (AICalls.for_rule example_calls ClinicalNotes) = Ok None.
Proof.
  assert (valid_calls (AICalls.for_rule example_calls DiagnosisEvaluation)) as Hv
    by (repeat constructor).
  assert (valid_calls (AICalls.for_rule example_calls ClinicalNotes)) as Hv'
    by (repeat constructor).
  split; [exact Hv|]. split; [reflexivity|].
  destruct (final_first_is_color_spec _ DiagnosisEvaluation Hv eq_refl eq_refl)
    as (fc & sc & Hf & Hs & _ & _ & _ & Hfr & Hsr & _).
  destruct (final_first_is_color_spec _ ClinicalNotes Hv' eq_refl eq_refl)
    as (fc' & sc' & Hf' & _ & _ & _ & _ & _ & _ & Hry).
  assert (fc = Some Red) as -> by (vm_compute in Hf; congruence).
  assert (sc = Some Yellow) as -> by (vm_compute in Hs; congruence).
  assert (fc' = None) as -> by (vm_compute in Hf'; congruence).
  rewrite Hfr, Hsr, Hry. done.
Defined.

(** ** Filtering composes *)

Lemma for_rule_calls cs r :
  AICalls.calls (AICalls.for_rule cs r)
  = filter (fun call => AICall.rule call = r) (AICalls.calls cs).
Proof. reflexivity. Qed.

Lemma for_rules_calls cs rules :
  AICalls.calls (AICalls.for_rules cs rules)
  = filter (fun call => AICall.rule call ∈ rules) (AICalls.calls cs).
Proof. reflexivity. Qed.

Lemma filter_none {A} (P : A -> Prop) `{!forall x, Decision (P x)} (l : list A) :
  Forall (fun x => ~ P x) l -> filter P l = [].
Proof.
  induction 1 as [|x l Hx _ IH]; [done|].
  by rewrite filter_cons_False.
Qed.

Lemma filter_all {A} (P : A -> Prop) `{!forall x, Decision (P x)} (l : list A) :
  Forall P l -> filter P l = l.
Proof.
  induction 1 as [|x l Hx _ IH]; [done|].
  rewrite filter_cons_True by done. by rewrite IH.
Qed.

Lemma filter_iff {A} (P Q : A -> Prop) `{!forall x, Decision (P x)}
    `{!forall x, Decision (Q x)} (l : list A) :
  (forall x, P x <-> Q x) -> filter P l = filter Q l.
Proof.
  intros Hiff. induction l as [|x l IH]; [done|].
  destruct (decide (P x)) as [HP|HP].
  - rewrite !filter_cons_True by (done || by apply Hiff). by rewrite IH.
  - rewrite !filter_cons_False by (done || by rewrite <- Hiff). done.
Qed.

Lemma for_rule_twice cs r r' :
  AICalls.calls (AICalls.for_rule (AICalls.for_rule cs r) r')
  = if decide (r = r') then AICalls.calls (AICalls.for_rule cs r) else [].
Proof.
  rewrite !for_rule_calls. destruct (decide (r = r')) as [<-|Hne].
  - apply filter_all. apply Forall_forall. intros x Hx.
    by apply list_elem_of_filter in Hx as [? _].
  - apply filter_none. apply Forall_forall. intros x Hx.
    apply list_elem_of_filter in Hx as [? _]. congruence.
Qed.

(** X6. Filters compose: [for_rule] after [for_rule] keeps the calls of the first
    when the categories agree and none otherwise; [for_rule] after
    [for_rules] is [for_rule] when the category is listed and empty
    otherwise; [for_rules] after [for_rules] keeps the categories listed in
    both; listing every category keeps every call, listing none keeps none. *)
Theorem filtering_composes (cs : AICalls.t) :
  (forall r r',
     AICalls.calls (AICalls.for_rule (AICalls.for_rule cs r) r')
     = if decide (r = r') then AICalls.calls (AICalls.for_rule cs r) else [])
  /\ (forall rules r,
     AICalls.calls (AICalls.for_rule (AICalls.for_rules cs rules) r)
     = if decide (r ∈ rules) then AICalls.calls (AICalls.for_rule cs r) else [])
  /\ (forall rules rules',
     AICalls.calls (AICalls.for_rules (AICalls.for_rules cs rules) rules')
     = AICalls.calls (AICalls.for_rules cs (filter (fun r => r ∈ rules') rules)))
  /\ AICalls.calls (AICalls.for_rules cs ClinicalDecisionRule_members) = AICalls.calls cs
  /\ AICalls.calls (AICalls.for_rules cs []) = [].
Proof.
  split; [apply for_rule_twice|]. split; [|split; [|split]].
  - intros rules r. rewrite !for_rule_calls, for_rules_calls, list_filter_filter.
    destruct (decide (r ∈ rules)) as [Hin|Hout].
    + apply filter_iff. intros x. split; [tauto|]. intros <-. done.
    + apply filter_none. apply Forall_forall. intros x _ [<- ?]. done.
  - intros rules rules'. rewrite !for_rules_calls, list_filter_filter.
    apply filter_iff. intros x. rewrite list_elem_of_filter. tauto.
  - rewrite for_rules_calls. apply filter_all, Forall_forall.
    intros x _. apply members_complete.
  - rewrite for_rules_calls. apply filter_none, Forall_forall.
    intros x _ H. inversion H.
Qed.

(** ** Queries without a scope *)

(** X4. [for_rules] with the single category [r] keeps the same calls as
    [for_rule] with [r], but the result has no scope: every query that goes
    through [first] or [final] raises on the result of [for_rules], whatever
    the categories and the calls. *)
Theorem for_rules_is_unscoped (cs : AICalls.t) (r : ClinicalDecisionRule)
    (rules : list ClinicalDecisionRule) (color : Color) :
  let no_final := ValueError "The final call is not defined for an AICalls object with no rule" in
  let no_first := ValueError "The first call is not defined for an AICalls object with no rule" in
  let sub := AICalls.for_rules cs rules in
  AICalls.calls (AICalls.for_rules cs [r]) = AICalls.calls (AICalls.for_rule cs r)
  /\ AICalls.final sub = Err no_final
  /\ AICalls.first sub = Err no_first
  /\ AICalls.final_color sub = Err no_final
  /\ AICalls.first_color sub = Err no_first
  /\ AICalls.final_is_color sub color = Err no_final
  /\ AICalls.first_is_color sub color = Err no_first
  /\ AICalls.final_red sub = Err no_final
  /\ AICalls.first_red sub = Err no_first
  /\ AICalls.final_red_yellow sub = Err no_final.
Proof.
  cbv zeta. split; [|by repeat split].
  rewrite for_rules_calls, for_rule_calls. apply filter_iff.
  intros x. rewrite list_elem_of_singleton. done.
Qed.

(** ** Temporal and existential queries together *)

Lemma final_elem cs c : AICalls.final cs = Ok (Some c) -> c ∈ AICalls.calls cs.
Proof. intros [_ H]%final_returns. by eapply first_max_by_elem. Qed.

Lemma first_elem cs c : AICalls.first cs = Ok (Some c) -> c ∈ AICalls.calls cs.
Proof. intros [_ H]%first_returns. by eapply first_min_by_elem. Qed.

Lemma final_color_call cs color :
  AICalls.final_color cs = Ok (Some color) ->
  exists c, c ∈ AICalls.calls cs /\ AICall.color c = Ok color.
Proof.
  unfold AICalls.final_color. destruct (AICalls.final cs) as [[c|]|] eqn:Hf; try done.
  cbn [mbind result_bind]. destruct (AICall.color c) as [m|] eqn:Hc; [|done].
  intros [= <-]. exists c. split; [by apply final_elem | done].
Qed.

Lemma first_color_call cs color :
  AICalls.first_color cs = Ok (Some color) ->
  exists c, c ∈ AICalls.calls cs /\ AICall.color c = Ok color.
Proof.
  unfold AICalls.first_color. destruct (AICalls.first cs) as [[c|]|] eqn:Hf; try done.
  cbn [mbind result_bind]. destruct (AICall.color c) as [m|] eqn:Hc; [|done].
  intros [= <-]. exists c. split; [by apply first_elem | done].
Qed.

Lemma for_rule_elem cs r c :
  c ∈ AICalls.calls (AICalls.for_rule cs r) -> c ∈ AICalls.calls cs.
Proof. rewrite for_rule_calls. by intros [_ ?]%list_elem_of_filter. Qed.

Lemma any_final_color_true cs color :
  AICalls.any_final_color cs color = Ok true ->
  exists r, AICalls.final_color (AICalls.for_rule cs r) = Ok (Some color).
Proof.
  unfold AICalls.any_final_color.
  destruct (mapM_result _ _) as [l|] eqn:Hl; [|done]. cbn [mbind result_bind].
  intros [= Hb]. apply bool_decide_eq_true in Hb. apply elem_of_list_to_set in Hb.
  revert l Hl Hb. induction ClinicalDecisionRule_members as [|r rs IH]; intros l Hl Hb.
  - simpl in Hl. injection Hl as <-. inversion Hb.
  - simpl in Hl. destruct (AICalls.final_color (AICalls.for_rule cs r)) as [o|] eqn:Ho; [|done].
    cbn [mbind result_bind] in Hl.
    destruct (mapM_result _ rs) as [l'|] eqn:Hl'; [|done].
    cbn [mbind result_bind] in Hl. injection Hl as <-.
    apply elem_of_cons in Hb as [<- | Hb]; [by exists r|]. by eapply IH.
Qed.

Lemma any_first_color_true cs color :
  AICalls.any_first_color cs color = Ok true ->
  exists r, AICalls.first_color (AICalls.for_rule cs r) = Ok (Some color).
Proof.
  unfold AICalls.any_first_color.
  destruct (mapM_result _ _) as [l|] eqn:Hl; [|done]. cbn [mbind result_bind].
  intros [= Hb]. apply bool_decide_eq_true in Hb. apply elem_of_list_to_set in Hb.
  revert l Hl Hb. induction ClinicalDecisionRule_members as [|r rs IH]; intros l Hl Hb.
  - simpl in Hl. injection Hl as <-. inversion Hb.
  - simpl in Hl. destruct (AICalls.first_color (AICalls.for_rule cs r)) as [o|] eqn:Ho; [|done].
    cbn [mbind result_bind] in Hl.
    destruct (mapM_result _ rs) as [l'|] eqn:Hl'; [|done].
    cbn [mbind result_bind] in Hl. injection Hl as <-.
    apply elem_of_cons in Hb as [<- | Hb]; [by exists r|]. by eapply IH.
Qed.

Lemma ever_had_color_of_call cs c color :
  valid_calls cs -> c ∈ AICalls.calls cs -> AICall.color c = Ok color ->
  AICalls.ever_had_color cs color = Ok (Some true).
Proof.
  intros Hv Hin Hc.
  assert (AICalls.calls cs <> []) as Hne by (intros E; rewrite E in Hin; inversion Hin).
  destruct (ever_had_color_valid cs color Hv Hne) as (b & -> & Hiff).
  do 2 f_equal. apply Hiff. eauto.
Qed.

(** X5. On a collection of valid calls, a color that [any_final_color] or
    [any_first_color] finds is a color that [ever_had_color] finds. *)
Theorem any_color_was_seen (cs : AICalls.t) (color : Color) :
  valid_calls cs ->
  (AICalls.any_final_color cs color = Ok true ->
   AICalls.ever_had_color cs color = Ok (Some true))
  /\ (AICalls.any_first_color cs color = Ok true ->
      AICalls.ever_had_color cs color = Ok (Some true)).
Proof.
  intros Hv. split.
  - intros (r & Hr)%any_final_color_true.
    apply final_color_call in Hr as (c & Hin & Hc).
    eapply ever_had_color_of_call; eauto using for_rule_elem.
  - intros (r & Hr)%any_first_color_true.
    apply first_color_call in Hr as (c & Hin & Hc).
    eapply ever_had_color_of_call; eauto using for_rule_elem.
Qed.

Lemma any_color_was_seen_witness :
  valid_calls example_calls
  /\ AICalls.any_final_color example_calls Red = Ok true
  /\ AICalls.ever_had_color example_calls Red = Ok (Some true).
Proof.
  split; [exact example_calls_valid|].
  assert (AICalls.any_final_color example_calls Red = Ok true) as H
    by (vm_compute; reflexivity).
  split; [exact H|].
  exact (proj1 (any_color_was_seen example_calls Red example_calls_valid) H).
Defined.

Lemma for_rule_same cs r :
  AICalls.for_rule (AICalls.for_rule cs r) r = AICalls.for_rule cs r.
Proof.
  pose proof (for_rule_twice cs r r) as H. rewrite decide_True in H by done.
  unfold AICalls.for_rule at 1. rewrite <- for_rule_calls, H. reflexivity.
Qed.

Lemma for_rule_twice_comparable cs r r' :
  times_comparable (AICalls.calls (AICalls.for_rule cs r)) = true ->
  times_comparable (AICalls.calls (AICalls.for_rule (AICalls.for_rule cs r) r')) = true.
Proof.
  intros H. rewrite for_rule_twice. by destruct (decide (r = r')).
Qed.

(** X7. On the result of [for_rule], over valid calls whose timestamps in
    that category are all naive or all aware, [any_final_color] and
    [any_first_color] return, and say whether the final (first) color of that
    one category is the given color: the other categories are empty there. *)
Theorem any_color_of_scoped (cs : AICalls.t) (r : ClinicalDecisionRule) (color : Color) :
  valid_calls cs ->
  times_comparable (AICalls.calls (AICalls.for_rule cs r)) = true ->
  exists b_final b_first,
    AICalls.any_final_color (AICalls.for_rule cs r) color = Ok b_final
    /\ AICalls.any_first_color (AICalls.for_rule cs r) color = Ok b_first
    /\ (b_final = true <->
        AICalls.final_color (AICalls.for_rule cs r) = Ok (Some color))
    /\ (b_first = true <->
        AICalls.first_color (AICalls.for_rule cs r) = Ok (Some color)).
Proof.
  intros Hv Hcmp. pose proof (valid_calls_for_rule cs r Hv) as Hv'.
  destruct (any_color_of AICalls.final_color (AICalls.for_rule cs r) color)
    as (bl & Hbl & Hl).
  { intros r'. apply final_color_for_rule_ok; [done|]. by apply for_rule_twice_comparable. }
  destruct (any_color_of AICalls.first_color (AICalls.for_rule cs r) color)
    as (bf & Hbf & Hf).
  { intros r'. apply first_color_for_rule_ok; [done|]. by apply for_rule_twice_comparable. }
  exists bl, bf. split; [exact Hbl|]. split; [exact Hbf|].
  assert (forall r', r' <> r ->
            AICalls.calls (AICalls.for_rule (AICalls.for_rule cs r) r') = []) as Hother.
  { intros r' Hne. rewrite for_rule_twice. by rewrite decide_False. }
  split.
  - rewrite Hl. split.
    + intros (r' & _ & Hr'). destruct (decide (r' = r)) as [->|Hne].
      * by rewrite for_rule_same in Hr'.
      * pose proof (final_color_scoped _ r' (valid_calls_for_rule _ r' Hv') eq_refl
                      (for_rule_twice_comparable cs r r' Hcmp)) as Hs.
        rewrite (Hother r' Hne) in Hs. congruence.
    + intros H. exists r. split; [apply members_complete|]. by rewrite for_rule_same.
  - rewrite Hf. split.
    + intros (r' & _ & Hr'). destruct (decide (r' = r)) as [->|Hne].
      * by rewrite for_rule_same in Hr'.
      * pose proof (first_color_scoped _ r' (valid_calls_for_rule _ r' Hv') eq_refl
                      (for_rule_twice_comparable cs r r' Hcmp)) as Hs.
        rewrite (Hother r' Hne) in Hs. congruence.
    + intros H. exists r. split; [apply members_complete|]. by rewrite for_rule_same.
Qed.

Lemma any_color_of_scoped_witness :
  valid_calls example_calls
  /\ times_comparable (AICalls.calls (AICalls.for_rule example_calls DiagnosisEvaluation)) = true
  /\ AICalls.any_first_color (AICalls.for_rule example_calls DiagnosisEvaluation) Yellow
     = Ok true.
Proof.
  split; [exact example_calls_valid|]. split; [reflexivity|].
  destruct (any_color_of_scoped example_calls DiagnosisEvaluation Yellow
              example_calls_valid eq_refl)
    as (bl & bf & _ & Hbf & _ & Hiff).
  rewrite Hbf. f_equal. apply Hiff. reflexivity.
Defined.



Lemma color_le_worst cs c m :
  valid_calls cs -> c ∈ AICalls.calls cs -> AICall.color c = Ok m ->
  exists w, AICalls.worst_color cs = Ok (Some w) /\ Color_value m <= Color_value w.
Proof.
  intros Hv Hin Hc.
  assert (AICalls.calls cs <> []) as Hne by (intros E; rewrite E in Hin; inversion Hin).
  destruct (worst_color_valid cs Hv Hne) as (w & per_call & Hall & _ & _ & Hw & Hmax).
  exists w. split; [done|]. apply Hmax.
  apply (Forall2_result_elem _ _ _ m Hall). eauto.
Qed.

(** X9. On a collection of valid calls, the final color and the first color are
    at most the worst color. *)
Theorem final_color_at_most_worst (cs : AICalls.t) (color : Color) :
  valid_calls cs ->
  (AICalls.final_color cs = Ok (Some color) \/ AICalls.first_color cs = Ok (Some color)) ->
  exists w, AICalls.worst_color cs = Ok (Some w) /\ Color_value color <= Color_value w.
Proof.
  intros Hv [H|H].
  - apply final_color_call in H as (c & Hin & Hc). by eapply color_le_worst.
  - apply first_color_call in H as (c & Hin & Hc). by eapply color_le_worst.
Qed.

Lemma final_color_at_most_worst_witness :
  valid_calls (AICalls.for_rule example_calls DiagnosisEvaluation)
  /\ exists w, AICalls.worst_color (AICalls.for_rule example_calls DiagnosisEvaluation)
               = Ok (Some w)
       /\ Color_value Yellow <= Color_value w.
Proof.
  assert (valid_calls (AICalls.for_rule example_calls DiagnosisEvaluation)) as Hv
    by (repeat constructor).
  split; [exact Hv|].
  apply (final_color_at_most_worst _ Yellow Hv). right. reflexivity.
Defined.

(** X10. On a collection of valid calls, the worst color of a category is at most
    the worst color of the collection, and the worst color of the collection
    is the worst color of some category. *)
Theorem worst_color_by_category (cs : AICalls.t) :
  valid_calls cs ->
  (forall r m,
     AICalls.worst_color (AICalls.for_rule cs r) = Ok (Some m) ->
     exists w, AICalls.worst_color cs = Ok (Some w) /\ Color_value m <= Color_value w)
  /\ (forall w,
     AICalls.worst_color cs = Ok (Some w) ->
     exists r, AICalls.worst_color (AICalls.for_rule cs r) = Ok (Some w)).
Proof.
  intros Hv. split.
  - intros r m Hm. pose proof (valid_calls_for_rule cs r Hv) as Hv'.
    destruct (decide (AICalls.calls (AICalls.for_rule cs r) = [])) as [Hnil|Hne].
    { rewrite worst_color_empty in Hm by done. done. }
    destruct (worst_color_valid _ Hv' Hne) as (m' & per & Hall & _ & _ & Hw & [Hin _]).
    assert (m' = m) as -> by congruence.
    apply (Forall2_result_elem _ _ _ m Hall) in Hin as (c & Hc & Hcol).
    eapply color_le_worst; eauto using for_rule_elem.
  - intros w Hw.
    destruct (decide (AICalls.calls cs = [])) as [Hnil|Hne].
    { rewrite worst_color_empty in Hw by done. done. }
    destruct (worst_color_valid _ Hv Hne) as (w' & per & Hall & _ & _ & Hw' & Hmax).
    assert (w' = w) as -> by congruence.
    destruct Hmax as [Hin Hup].
    apply (Forall2_result_elem _ _ _ w Hall) in Hin as (c & Hc & Hcol).
    exists (AICall.rule c).
    pose proof (valid_calls_for_rule cs (AICall.rule c) Hv) as Hv'.
    assert (c ∈ AICalls.calls (AICalls.for_rule cs (AICall.rule c))) as Hc'.
    { rewrite for_rule_calls. by apply list_elem_of_filter. }
    destruct (color_le_worst _ c w Hv' Hc' Hcol) as (m & Hm & Hle).
    rewrite Hm. do 2 f_equal.
    assert (Color_value m <= Color_value w); [|destruct m, w; simpl in *; (done || lia)].
    destruct (decide (AICalls.calls (AICalls.for_rule cs (AICall.rule c)) = [])) as [E|Hne'].
    { rewrite worst_color_empty in Hm by done. done. }
    destruct (worst_color_valid _ Hv' Hne') as (m' & per' & Hall' & _ & _ & Hm' & [Hin' _]).
    assert (m' = m) as -> by congruence.
    apply (Forall2_result_elem _ _ _ m Hall') in Hin' as (c' & Hc'' & Hcol').
    apply Hup. apply (Forall2_result_elem _ _ _ m Hall). eauto using for_rule_elem.
Qed.

Lemma worst_color_by_category_witness :
  valid_calls example_calls
  /\ exists r, AICalls.worst_color (AICalls.for_rule example_calls r) = Ok (Some Red).
Proof.
  split; [exact example_calls_valid|].
  apply (proj2 (worst_color_by_category example_calls example_calls_valid)).
  vm_compute. reflexivity.
Defined.

Lemma any_final_color_valid cs color :
  valid_calls cs -> category_times_comparable cs = true ->
  exists b, AICalls.any_final_color cs color = Ok b
    /\ (b = true <-> exists r, AICalls.final_color (AICalls.for_rule cs r) = Ok (Some color)).
Proof.
  intros Hv Hcmp.
  destruct (any_color_of AICalls.final_color cs color) as (b & Hb & Hiff).
  { intros r. apply final_color_for_rule_ok; [done|]. by apply category_times_comparable_at. }
  exists b. split; [exact Hb|]. rewrite Hiff. split.
  - intros (r & _ & H). eauto.
  - intros (r & H). exists r. split; [apply members_complete | done].
Qed.

Lemma ever_red_yellow_seen cs c color :
  valid_calls cs -> c ∈ AICalls.calls cs -> AICall.color c = Ok color ->
  color = Red \/ color = Yellow ->
  AICalls.ever_red_yellow cs = Ok (Some true).
Proof.
  intros Hv Hin Hc Hcol.
  assert (AICalls.calls cs <> []) as Hne by (intros E; rewrite E in Hin; inversion Hin).
  unfold AICalls.ever_red_yellow.
  destruct (ever_had_color_valid cs Red Hv Hne) as (b & -> & Hiff).
  cbn [mbind result_bind]. destruct b; [done|]. simpl.
  destruct Hcol as [->| ->].
  - exfalso. assert (false = true); [|done]. apply Hiff. eauto.
  - by eapply ever_had_color_of_call.
Qed.

(** X11. On a collection of valid calls in which the timestamps within each
    category are all naive or all aware, [any_final_red_yellow] returns a boolean
    that is [True] exactly when the final color of some category is Red or
    Yellow, and then [ever_red_yellow] is [True]; [any_final_red] and
    [any_first_red] are [any_final_color] and [any_first_color] at Red. *)
Theorem any_final_red_yellow_spec (cs : AICalls.t) :
  valid_calls cs -> category_times_comparable cs = true ->
  exists b,
    AICalls.any_final_red_yellow cs = Ok b
    /\ (b = true <->
        exists r, AICalls.final_color (AICalls.for_rule cs r) = Ok (Some Red)
                  \/ AICalls.final_color (AICalls.for_rule cs r) = Ok (Some Yellow))
    /\ (b = true -> AICalls.ever_red_yellow cs = Ok (Some true))
    /\ AICalls.any_final_red cs = AICalls.any_final_color cs Red
    /\ AICalls.any_first_red cs = AICalls.any_first_color cs Red.
Proof.
  intros Hv Hcmp.
  destruct (any_final_color_valid cs Red Hv Hcmp) as (b1 & Hb1 & Hiff1).
  destruct (any_final_color_valid cs Yellow Hv Hcmp) as (b2 & Hb2 & Hiff2).
  assert (AICalls.any_final_red_yellow cs = Ok (b1 || b2)) as Hb.
  { unfold AICalls.any_final_red_yellow. rewrite Hb1. cbn [mbind result_bind].
    destruct b1; [done|]. by rewrite Hb2. }
  assert (b1 || b2 = true <->
          exists r, AICalls.final_color (AICalls.for_rule cs r) = Ok (Some Red)
                    \/ AICalls.final_color (AICalls.for_rule cs r) = Ok (Some Yellow)) as Hiff.
  { rewrite orb_true_iff, Hiff1, Hiff2. split.
    - intros [(r & H)|(r & H)]; eauto.
    - intros (r & [H|H]); eauto. }
  exists (b1 || b2). split; [done|]. split; [done|]. split; [|done].
  intros (r & Hr)%Hiff.
  destruct Hr as [Hr|Hr]; apply final_color_call in Hr as (c & Hin & Hc);
    eapply ever_red_yellow_seen; eauto using for_rule_elem.
Qed.

Lemma any_final_red_yellow_spec_witness :
  valid_calls example_calls
  /\ category_times_comparable example_calls = true
  /\ AICalls.any_final_red_yellow example_calls = Ok true
  /\ AICalls.ever_red_yellow example_calls = Ok (Some true).
Proof.
  split; [exact example_calls_valid|]. split; [reflexivity|].
  destruct (any_final_red_yellow_spec example_calls example_calls_valid eq_refl)
    as (b & Hb & Hiff & Hever & _).
  assert (b = true) as Htrue.
  { apply Hiff. exists DiagnosisEvaluation. left. reflexivity. }
  rewrite Hb, Htrue. split; [done|]. by apply Hever.
Defined.

(** ** Counting colons *)

Lemma colons_app a b : colons (a +:+ b) = (colons a + colons b)%nat.
Proof. induction a as [|c a IH]; simpl; [done | rewrite IH; lia]. Qed.

Lemma colons_zero s : colons s = O <-> string_forall not_colon s = true.
Proof.
  induction s as [|c s IH]; simpl; [done|]. unfold not_colon.
  destruct (is_char ":" c); simpl; [split; [lia | done] | done].
Qed.

Lemma string_forall_app p a b :
  string_forall p (a +:+ b) = string_forall p a && string_forall p b.
Proof. induction a as [|c a IH]; simpl; [done | by rewrite IH, andb_assoc]. Qed.

Lemma prefix_split a s :
  String.prefix a s = true -> s = a +:+ string_drop (String.length a) s.
Proof.
  revert s. induction a as [|c a IH]; intros s H; simpl.
  - by destruct s.
  - destruct s as [|c' s]; simpl in H; [done|].
    destruct (ascii_dec c c') as [<-|]; [|done]. simpl. f_equal. by apply IH.
Qed.

Lemma string_drop_colons k s : (colons (string_drop k s) <= colons s)%nat.
Proof.
  revert k. induction s as [|c s IH]; intros [|k]; simpl; try lia.
  specialize (IH k). lia.
Qed.

Lemma replace_go_colons old new k s :
  (colons new <= colons old)%nat ->
  (colons (replace_go old new k s) <= colons (string_drop k s))%nat.
Proof.
  intros Hnew. revert k. induction s as [|c s IH]; intros k.
  { destruct k; simpl; lia. }
  destruct k as [|k]; [|apply IH].
  cbn [replace_go string_drop].
  destruct (String.prefix old (String c s)) eqn:Hp.
  - rewrite colons_app. specialize (IH (String.length old - 1)%nat).
    apply prefix_split in Hp. destruct old as [|o old].
    + simpl in *. pose proof (string_drop_colons 0 s). 
      assert (colons (replace_go "" new 0 s) <= colons s)%nat by (by destruct s).
      lia.
    + simpl in Hp. injection Hp as -> Hs.
      replace (String.length (String o old) - 1)%nat with (String.length old) in *
        by (simpl; lia).
      assert (colons (String o s)
              = colons (String o old) + colons (string_drop (String.length old) s))%nat as E.
      { simpl. rewrite Hs at 1. rewrite colons_app. lia. }
      rewrite E. lia.
  - simpl. specialize (IH O). assert (string_drop 0 s = s) as E by (by destruct s).
    rewrite E in IH. lia.
Qed.

Lemma str_replace_colons old new s :
  (colons new <= colons old)%nat -> (colons (str_replace old new s) <= colons s)%nat.
Proof. intros H. apply (replace_go_colons old new 0 s H). Qed.

Lemma split_go_head_colons sep s :
  exists b bs, split_go sep 0 s = b :: bs /\ (colons b <= colons s)%nat.
Proof.
  induction s as [|c s (b & bs & IH & Hle)]; [by exists EmptyString, []|].
  cbn [split_go]. destruct (String.prefix sep (String c s)).
  - eexists _, _. split; [reflexivity|]. simpl. lia.
  - rewrite IH. simpl. eexists _, _. split; [reflexivity|]. simpl. lia.
Qed.

Lemma blocks_of_head s :
  exists b bs, blocks_of s = b :: bs /\ (colons b <= colons s)%nat.
Proof.
  unfold blocks_of, str_split.
  destruct (split_go_head_colons (nl +:+ nl)
              (str_replace "::" ":" (str_replace investigation_header "" s)))
    as (b & bs & -> & Hle).
  exists b, bs. split; [done|].
  pose proof (str_replace_colons "::" ":" (str_replace investigation_header "" s) ltac:(simpl; lia)).
  pose proof (str_replace_colons investigation_header "" s ltac:(simpl; lia)).
  lia.
Qed.

(** ** Text without a pair separator *)

Lemma starts_key_colon t : starts_key t -> (1 <= colons t)%nat.
Proof.
  intros (run & tail & -> & _). rewrite !colons_app. simpl. lia.
Qed.

Lemma separator_at_colon s e : separator_at s e -> (1 <= colons s)%nat.
Proof.
  intros (ws & -> & _ & He%starts_key_colon & _). rewrite !colons_app. lia.
Qed.

Lemma re_split_no_colon t :
  colons t = O -> re_split pair_separator t = [t].
Proof.
  intros Ht. pose proof (re_split_spec t) as H.
  inversion H as [s Hno Hs Hl | pre suf e chunks Hno Hsep Hrest Hs Hl]; [done|].
  apply separator_at_colon in Hsep. rewrite <- Hs, colons_app in Ht. lia.
Qed.

Lemma lstrip_colons s : (colons (lstrip s) <= colons s)%nat.
Proof. induction s as [|c s IH]; simpl; [lia|]. destruct (is_space c); simpl; lia. Qed.

Lemma rstrip_colons s : (colons (rstrip s) <= colons s)%nat.
Proof.
  induction s as [|c s IH]; simpl; [lia|].
  destruct (rstrip s) eqn:E; [destruct (is_space c); simpl in *; lia | simpl in *; lia].
Qed.

Lemma strip_colons s : (colons (strip s) <= colons s)%nat.
Proof. unfold strip. pose proof (rstrip_colons (lstrip s)). pose proof (lstrip_colons s). lia. Qed.

Lemma partition_first_none s : colons s = O -> partition_first ":" s = None.
Proof.
  intros H. pose proof (partition_first_colon s) as P.
  destruct (partition_first ":" s) as [[k v]|]; [|done].
  destruct P as [-> _]. rewrite !colons_app in H. simpl in H. lia.
Qed.

Lemma partition_first_colons s k v :
  partition_first ":" s = Some (k, v) -> colons s = S (colons v) /\ colons k = O.
Proof.
  intros H. pose proof (partition_first_colon s) as P. rewrite H in P.
  destruct P as [-> Hk]. apply colons_zero in Hk. rewrite !colons_app, Hk. simpl. lia.
Qed.

Lemma parse_pairs_no_colon body :
  colons body = O ->
  parse_pairs body = Err (ValueError "not enough values to unpack (expected 2, got 1)").
Proof.
  intros H. unfold parse_pairs. rewrite re_split_no_colon by done.
  cbn [foldM_result]. unfold str_split1. by rewrite partition_first_none.
Qed.

Lemma format_investigation_few_colons acc block :
  (colons block <= 1)%nat ->
  format_investigation acc block
  = Err (ValueError "not enough values to unpack (expected 2, got 1)").
Proof.
  intros H. unfold format_investigation, str_split1.
  destruct (partition_first ":" block) as [[name body]|] eqn:Hp; [|done].
  apply partition_first_colons in Hp as [Hb _].
  cbn [unpack2 mbind result_bind].
  rewrite parse_pairs_no_colon; [done|].
  pose proof (strip_colons body). lia.
Qed.

(** X12. A laboratory text with at most one colon, other than "Not recorded",
    makes the normalizer raise [ValueError]: either its first block has no
    colon, or the body of that block has none. *)
Theorem lab_test_clean_needs_two_colons (s : string) :
  (colons s <= 1)%nat -> s <> "Not recorded"%string ->
  lab_test_clean (Some s)
  = Err (ValueError "not enough values to unpack (expected 2, got 1)").
Proof.
  intros Hc Hs. unfold lab_test_clean.
  destruct (String.eqb_spec s "Not recorded"); [done|].
  destruct (blocks_of_head s) as (b & bs & Hb & Hle).
  unfold blocks_of, investigation_header in Hb. rewrite Hb.
  cbn [foldM_result]. rewrite format_investigation_few_colons by lia. done.
Qed.

Lemma lab_test_clean_needs_two_colons_witness :
  lab_test_clean (Some "Malaria RDT: Negative"%string)
  = Err (ValueError "not enough values to unpack (expected 2, got 1)").
Proof.
  apply lab_test_clean_needs_two_colons; [simpl; lia | discriminate].
Defined.

(** ** The header *)

Lemma str_replace_header s :
  str_replace investigation_header "" (investigation_header +:+ s)
  = str_replace investigation_header "" s.
Proof. destruct s; vm_compute; reflexivity. Qed.

(** X13. A leading header is deleted: the normalizer treats the header followed by
    [s] as [s], except when [s] is "Not recorded", which then is no longer
    the whole input and raises. *)
Theorem lab_test_clean_header (s : string) :
  lab_test_clean (Some (investigation_header +:+ s))
  = if decide (s = "Not recorded"%string)
    then Err (ValueError "not enough values to unpack (expected 2, got 1)")
    else lab_test_clean (Some s).
Proof.
  destruct (decide (s = "Not recorded"%string)) as [->|Hs].
  - vm_compute. reflexivity.
  - unfold lab_test_clean at 2.
    destruct (String.eqb_spec s "Not recorded"); [done|].
    change (lab_test_clean (Some (investigation_header +:+ s)))
      with (Some <$> foldM_result format_investigation EmptyString
              (str_split (nl +:+ nl)
                 (str_replace "::" ":"
                    (str_replace investigation_header "" (investigation_header +:+ s))))).
    by rewrite str_replace_header.
Qed.

(** ** Dictionaries *)

Lemma render_cons e l : render (e :: l) = bullet (fst e) (snd e) +:+ render l.
Proof. reflexivity. Qed.

Lemma render_app a b : render (a ++ b) = render a +:+ render b.
Proof.
  induction a as [|e a IH]; [done|].
  rewrite <- app_comm_cons, !render_cons, IH. by rewrite string_app_assoc.
Qed.

Lemma dict_get_skip k v pre d :
  Forall (fun e => fst e <> k) pre -> dict_get k (pre ++ (k, v) :: d) = Ok v.
Proof.
  induction 1 as [|[k' v'] pre Hk _ IH]; simpl.
  - by rewrite String.eqb_refl.
  - simpl in Hk. by destruct (String.eqb_spec k' k).
Qed.

Lemma dict_del_skip k v pre d :
  Forall (fun e => fst e <> k) pre -> dict_del k (pre ++ (k, v) :: d) = Ok (pre ++ d).
Proof.
  induction 1 as [|[k' v'] pre Hk _ IH]; simpl.
  - by rewrite String.eqb_refl.
  - simpl in Hk. destruct (String.eqb_spec k' k); [done|]. by rewrite IH.
Qed.

Lemma dict_keys_set k v d :
  dict_keys (dict_set k v d) = if decide (k ∈ dict_keys d) then dict_keys d
                               else dict_keys d ++ [k].
Proof.
  unfold dict_keys. induction d as [|[k' v'] d IH].
  - case_decide as H; [inversion H | done].
  - cbn [dict_set]. destruct (String.eqb_spec k' k) as [->|Hne].
    + clear IH. cbn [map fst]. case_decide as H; [reflexivity|]. exfalso. apply H. left.
    + cbn [map fst] in *. rewrite IH. clear IH.
      destruct (decide (k ∈ map fst d)) as [H|H];
        destruct (decide (k ∈ k' :: map fst d)) as [H'|H']; try reflexivity.
      * exfalso. apply H'. by right.
      * exfalso. apply elem_of_cons in H' as [->|H']; done.
Qed.

Lemma dict_set_nodup k v d : NoDup (dict_keys d) -> NoDup (dict_keys (dict_set k v d)).
Proof.
  intros H. rewrite dict_keys_set. destruct (decide _); [done|].
  apply NoDup_app. split; [done|]. split; [|apply NoDup_singleton].
  intros x Hx Hx'. apply list_elem_of_singleton in Hx'. by subst.
Qed.

Lemma dict_set_elem k v d e :
  e ∈ dict_set k v d -> e = (k, v) \/ e ∈ d.
Proof.
  induction d as [|[k' v'] d IH]; simpl.
  - intros H. apply list_elem_of_singleton in H. by left.
  - destruct (String.eqb_spec k' k) as [->|Hne].
    + rewrite !elem_of_cons. intros [->|?]; auto.
    + rewrite !elem_of_cons. intros [->|H]; [auto|]. apply IH in H as [?|?]; auto.
Qed.

Lemma dict_get_nodup d k v :
  NoDup (dict_keys d) -> (k, v) ∈ d -> dict_get k d = Ok v.
Proof.
  induction d as [|[k' v'] d IH]; intros Hnd Hin; [inversion Hin|].
  simpl in *. apply NoDup_cons in Hnd as [Hk' Hnd].
  apply elem_of_cons in Hin as [[= <- <-]|Hin].
  - by rewrite String.eqb_refl.
  - destruct (String.eqb_spec k' k) as [->|Hne]; [|by apply IH].
    exfalso. apply Hk'. apply list_elem_of_fmap. by exists (k, v).
Qed.

Lemma entry_of_keys d : NoDup (dict_keys d) -> map (entry_of d) (dict_keys d) = d.
Proof.
  intros Hnd. 
  assert (forall l, Forall (fun e => e ∈ d) l -> map (entry_of d) (map fst l) = l) as H.
  { induction 1 as [|[k v] l He _ IH]; simpl; [done|].
    rewrite IH. unfold entry_of at 1. simpl. by rewrite (dict_get_nodup d k v). }
  apply H. by apply Forall_forall.
Qed.

(** ** Strings that are stripped *)

Lemma lstrip_head s : match lstrip s with String c _ => is_space c = false | EmptyString => True end.
Proof. induction s as [|c s IH]; simpl; [done|]. by destruct (is_space c) eqn:E. Qed.

Lemma lstrip_fixed s :
  match s with String c _ => is_space c = false | EmptyString => True end -> lstrip s = s.
Proof. destruct s as [|c s]; simpl; [done|]. by intros ->. Qed.

Lemma rstrip_head s :
  match s with String c _ => is_space c = false | EmptyString => True end ->
  match rstrip s with String c _ => is_space c = false | EmptyString => True end.
Proof.
  destruct s as [|c s]; simpl; [done|]. intros Hc.
  destruct (rstrip s); simpl; by rewrite ?Hc.
Qed.

Lemma rstrip_idem s : rstrip (rstrip s) = rstrip s.
Proof.
  induction s as [|c s IH]; simpl; [done|].
  destruct (rstrip s) as [|c' r] eqn:E.
  - destruct (is_space c) eqn:Hc; simpl; [done | by rewrite Hc].
  - change (rstrip (String c (String c' r))) with
      (match rstrip (String c' r) with
       | EmptyString => if is_space c then EmptyString else String c EmptyString
       | r' => String c r'
       end).
    by rewrite IH.
Qed.

Lemma strip_idem s : strip (strip s) = strip s.
Proof.
  unfold strip. rewrite (lstrip_fixed (rstrip (lstrip s))).
  - apply rstrip_idem.
  - apply rstrip_head, lstrip_head.
Qed.

(** ** The pairs of a block *)

Lemma parse_pairs_fold chunks d0 d :
  stripped_pairs d0 ->
  foldM_result
    (fun investigation_substrings chunk =>
       '(key, value) ← unpack2 (str_split1 ":" chunk);
       Ok (dict_set (strip key) (strip value) investigation_substrings))
    d0 chunks = Ok d ->
  stripped_pairs d /\ (chunks <> [] -> d <> []).
Proof.
  revert d0. induction chunks as [|chunk chunks IH]; intros d0 Hd0; simpl.
  - intros [= <-]. done.
  - unfold str_split1.
    destruct (partition_first ":" chunk) as [[k v]|] eqn:Hp; [|done].
    cbn [unpack2 mbind result_bind]. intros H.
    apply partition_first_colons in Hp as [_ Hk].
    assert (stripped_pairs (dict_set (strip k) (strip v) d0)) as Hd1.
    { destruct Hd0 as [Hnd Hall]. split; [by apply dict_set_nodup|].
      apply Forall_forall. intros e He. apply dict_set_elem in He as [->|He].
      - simpl. rewrite !strip_idem. pose proof (strip_colons k). split; [lia | done].
      - by eapply Forall_forall in Hall. }
    destruct (IH _ Hd1 H) as [Hd Hne]. split; [done|]. intros _.
    destruct chunks as [|c' chunks'].
    + simpl in H. injection H as <-. by destruct d0 as [|[] ?]; simpl; try destruct (String.eqb _ _).
    + by apply Hne.
Qed.

Lemma parse_pairs_stripped (body : string) (d : dict) :
  parse_pairs body = Ok d -> stripped_pairs d /\ d <> [].
Proof.
  intros H. unfold parse_pairs in H.
  apply parse_pairs_fold in H as [Hd Hne].
  - split; [done|]. apply Hne.
    pose proof (re_split_spec body) as Hs. by inversion Hs.
  - split; constructor.
Qed.

(** X14. The pairs read from the body of a block: there is at least one, no key
    occurs twice, no key holds a colon, and keys and values carry no
    whitespace at either end. *)
Theorem parse_pairs_invariants (body : string) (d : dict) :
  parse_pairs body = Ok d ->
  d <> []
  /\ NoDup (dict_keys d)
  /\ Forall (fun e => colons (fst e) = O
                      /\ strip (fst e) = fst e /\ strip (snd e) = snd e) d.
Proof.
  intros H. apply parse_pairs_stripped in H as [[Hnd Hall] Hne]. done.
Qed.

Lemma parse_pairs_invariants_witness :
  parse_pairs "WBC: 7.2, HGB: 13,400, WBC : 8" = Ok [("WBC", "8"); ("HGB", "13,400")]%string
  /\ NoDup (dict_keys [("WBC", "8"); ("HGB", "13,400")]%string).
Proof.
  assert (parse_pairs "WBC: 7.2, HGB: 13,400, WBC : 8"
          = Ok [("WBC", "8"); ("HGB", "13,400")]%string) as H by (vm_compute; reflexivity).
  split; [exact H|]. exact (proj1 (proj2 (parse_pairs_invariants _ _ H))).
Defined.

(** ** The bullets of a block *)

Lemma emit_result_keys_from (d pre : dict) (acc : string) :
  Forall (fun e => ~ is_result_entry e) pre ->
  emit_result_keys (filter (fun k => is_result_key k = true) (dict_keys d)) acc (pre ++ d)
  = Ok (acc +:+ render (filter is_result_entry d),
        pre ++ filter (fun e => ~ is_result_entry e) d).
Proof.
  unfold emit_result_keys.
  revert pre acc. induction d as [|[k v] d IH]; intros pre acc Hpre.
  - simpl. by rewrite string_app_nil_r.
  - unfold dict_keys. cbn [map fst].
    destruct (decide (is_result_key k = true)) as [Hk|Hk].
    + assert (is_result_entry (k, v)) as Hre by exact Hk.
      assert (~ ~ is_result_entry (k, v)) as Hnn by (intros H; by apply H).
      rewrite (filter_cons_True (fun k => is_result_key k = true) k _ Hk).
      rewrite (filter_cons_True is_result_entry (k, v) d Hre).
      rewrite (filter_cons_False (fun e => ~ is_result_entry e) (k, v) d Hnn).
      cbn [foldM_result].
      assert (Forall (fun e : string * string => fst e <> k) pre) as Hne.
      { eapply Forall_impl; [exact Hpre|]. intros e He Heq. apply He.
        unfold is_result_entry. by rewrite Heq. }
      rewrite (dict_get_skip k v pre d Hne), (dict_del_skip k v pre d Hne).
      cbn [mbind result_bind].
      specialize (IH pre (acc +:+ bullet k v) Hpre). unfold dict_keys in IH.
      rewrite IH. rewrite render_cons, string_app_assoc. done.
    + assert (~ is_result_entry (k, v)) as Hre by exact Hk.
      rewrite (filter_cons_False (fun k => is_result_key k = true) k _ Hk).
      rewrite (filter_cons_False is_result_entry (k, v) d Hre).
      rewrite (filter_cons_True (fun e => ~ is_result_entry e) (k, v) d Hre).
      specialize (IH (pre ++ [(k, v)]) acc). unfold dict_keys in IH.
      rewrite <- !app_assoc in IH. simpl in IH. apply IH.
      apply Forall_app. split; [done|]. by constructor.
Qed.

Lemma emit_result_keys_all (d : dict) (acc : string) :
  emit_result_keys (filter (fun k => is_result_key k = true) (dict_keys d)) acc d
  = Ok (acc +:+ render (result_entries d),
        other_entries d).
Proof. by apply (emit_result_keys_from d [] acc). Qed.

Lemma other_entries_nodup d : NoDup (dict_keys d) -> NoDup (dict_keys (other_entries d)).
Proof.
  intros Hnd. unfold dict_keys, other_entries in *.
  eapply sublist_NoDup; [exact Hnd|].
  apply (fmap_sublist fst), sublist_filter.
Qed.

Lemma dict_get_key k d : k ∈ dict_keys d -> is_ok (dict_get k d) = true.
Proof.
  induction d as [|[k' v'] d IH]; intros H; [inversion H|]. simpl in *.
  destruct (String.eqb_spec k' k); [done|].
  apply elem_of_cons in H as [->|H]; [done | by apply IH].
Qed.

Lemma emit_sorted_keys (d : dict) (ks : list string) (acc : string) :
  Forall (fun k => k ∈ dict_keys d) ks ->
  foldM_result
    (fun formatted_string k => v ← dict_get k d; Ok (formatted_string +:+ bullet k v))
    acc ks
  = Ok (acc +:+ render (map (entry_of d) ks)).
Proof.
  intros Hks. revert acc. induction Hks as [|k ks Hk _ IH]; intros acc.
  - simpl. by rewrite string_app_nil_r.
  - cbn [foldM_result map]. apply dict_get_key in Hk.
    destruct (dict_get k d) as [v|] eqn:Hv; [|done]. cbn [mbind result_bind].
    assert (entry_of d k = (k, v)) as -> by (unfold entry_of; by rewrite Hv).
    rewrite IH, render_cons. f_equal. apply string_app_assoc.
Qed.

Lemma sorted_by_perm {K A} (ltb : K -> K -> bool) (key : A -> result K) l r :
  sorted_by ltb key l = Ok r -> r ≡ₚ l.
Proof.
  unfold sorted_by. destruct (mapM_result key l) as [ks|] eqn:Hks; [|done].
  cbn [mbind result_bind]. intros [= <-].
  rewrite sort_keyed_perm. rewrite snd_zip; [done|].
  clear -Hks. revert ks Hks. induction l as [|x l IH]; intros ks; simpl.
  - intros [= <-]. done.
  - destruct (key x); [|done]. cbn [mbind result_bind].
    destruct (mapM_result key l) as [ks'|]; [|done]. cbn [mbind result_bind].
    intros [= <-]. simpl. specialize (IH ks' eq_refl). lia.
Qed.

Lemma sorted_keys_perm name d ks : sorted_keys name d = Ok ks -> ks ≡ₚ dict_keys d.
Proof.
  unfold sorted_keys. destruct (_ !! _); apply sorted_by_perm.
Qed.

(** The equation of the loop body, with both loops over keys carried out. *)
Lemma format_investigation_eq (acc block : string) :
  format_investigation acc block
  = '(name, body) ← unpack2 (str_split1 ":" block);
    d ← parse_pairs (strip body);
    ks ← sorted_keys (strip name) (other_entries d);
    Ok (acc +:+ strip name +:+ ": "
        +:+ render (result_entries d)
        +:+ render (map (entry_of (other_entries d)) ks)
        +:+ nl +:+ nl).
Proof.
  unfold format_investigation.
  destruct (unpack2 (str_split1 ":" block)) as [[name body]|]; [|done].
  cbn [mbind result_bind].
  destruct (parse_pairs (strip body)) as [d|]; [|done]. cbn [mbind result_bind].
  rewrite emit_result_keys_all. cbn [mbind result_bind].
  destruct (sorted_keys _ _) as [ks|] eqn:Hks; [|done]. cbn [mbind result_bind].
  rewrite emit_sorted_keys.
  - cbn [mbind result_bind]. by rewrite !string_app_assoc.
  - apply sorted_keys_perm in Hks. apply Forall_forall. intros k Hk. by rewrite <- Hks.
Qed.

(** X15. When a block is formatted, the output is the text so far, the stripped
    name and ": ", then one bullet for each pair of the block, each pair
    once: the pairs with a result key in the order read, then the others in
    the order [sorted_keys] gives, and a blank line. *)
Theorem format_investigation_bullets (acc block out : string) :
  format_investigation acc block = Ok out ->
  exists name body d rest,
    str_split1 ":" block = [name; body]
    /\ parse_pairs (strip body) = Ok d
    /\ rest ≡ₚ other_entries d
    /\ sorted_keys (strip name) (other_entries d)
       = Ok (dict_keys rest)
    /\ out = acc +:+ strip name +:+ ": "
             +:+ render (result_entries d) +:+ render rest +:+ nl +:+ nl.
Proof.
  rewrite format_investigation_eq. unfold str_split1.
  destruct (partition_first ":" block) as [[name body]|]; [|done].
  cbn [unpack2 mbind result_bind].
  destruct (parse_pairs (strip body)) as [d|] eqn:Hd; [|done]. cbn [mbind result_bind].
  destruct (sorted_keys _ _) as [ks|] eqn:Hks; [|done]. cbn [mbind result_bind].
  intros [= <-].
  set (others := other_entries d) in *.
  assert (NoDup (dict_keys others)) as Hnd.
  { apply other_entries_nodup. by apply parse_pairs_stripped in Hd as [[? _] _]. }
  exists name, body, d, (map (entry_of others) ks).
  split; [done|]. split; [done|]. split; [|split; [|done]].
  - transitivity (map (entry_of others) (dict_keys others)).
    + apply Permutation_map. by apply sorted_keys_perm in Hks.
    + by rewrite entry_of_keys.
  - subst others. rewrite Hks. f_equal. unfold dict_keys. rewrite map_map. simpl.
    by rewrite map_id.
Qed.

Lemma format_investigation_witness_run :
  format_investigation EmptyString fhg_input = Ok fhg_output.
Proof. vm_compute. reflexivity. Qed.

Lemma format_investigation_bullets_witness :
  exists name body d rest,
    str_split1 ":" fhg_input = [name; body]
    /\ parse_pairs (strip body) = Ok d
    /\ rest ≡ₚ other_entries d
    /\ sorted_keys (strip name) (other_entries d) = Ok (dict_keys rest)
    /\ fhg_output = EmptyString +:+ strip name +:+ ": "
                    +:+ render (result_entries d) +:+ render rest +:+ nl +:+ nl.
Proof.
  exact (format_investigation_bullets EmptyString fhg_input fhg_output
           format_investigation_witness_run).
Defined.

(** ** Blocks are formatted one by one *)

Lemma format_investigation_frame (acc block : string) :
  format_investigation acc block
  = (fun out => acc +:+ out) <$> format_investigation EmptyString block.
Proof.
  rewrite !format_investigation_eq.
  destruct (unpack2 _) as [[name body]|]; [|done]. cbn [mbind result_bind].
  destruct (parse_pairs _) as [d|]; [|done]. cbn [mbind result_bind].
  destruct (sorted_keys _ _) as [ks|]; [|done]. reflexivity.
Qed.

Lemma foldM_format_investigation (acc : string) (blocks : list string) :
  foldM_result format_investigation acc blocks
  = (fun outs => acc +:+ join outs)
    <$> mapM_result (format_investigation EmptyString) blocks.
Proof.
  revert acc. induction blocks as [|b blocks IH]; intros acc.
  - simpl. by rewrite string_app_nil_r.
  - cbn [foldM_result mapM_result]. rewrite format_investigation_frame.
    destruct (format_investigation EmptyString b) as [out|]; [|done].
    cbn [fmap result_fmap mbind result_bind]. rewrite IH.
    destruct (mapM_result _ blocks) as [outs|]; [|done].
    cbn [fmap result_fmap mbind result_bind]. f_equal. apply string_app_assoc.
Qed.

(** X16. Blocks are formatted one by one: for a text other than "Not recorded" the
    output is the outputs of its blocks, each formatted on its own, one after
    the other, and the first block that raises decides the exception. *)
Theorem lab_test_clean_blockwise (s : string) :
  lab_test_clean (Some s)
  = if decide (s = "Not recorded"%string) then Ok (Some "Not recorded"%string)
    else (fun outs => Some (join outs))
         <$> mapM_result (format_investigation EmptyString) (blocks_of s).
Proof.
  unfold lab_test_clean. destruct (String.eqb_spec s "Not recorded") as [->|Hs].
  - by rewrite decide_True.
  - rewrite decide_False by done.
    change (str_split (nl +:+ nl)
              (str_replace "::" ":" (str_replace ("**Investigations conducted:**" +:+ nl) "" s)))
      with (blocks_of s).
    rewrite foldM_format_investigation.
    by destruct (mapM_result _ _).
Qed.

Section RenderingFacts.
Context {float : Type} (float_str : float -> string).

Lemma value_str_of_str o :
  value_str float_str (not_recorded (of_str (float:=float) o)) = shown o.
Proof. by destruct o. Qed.

Lemma value_str_of_float o :
  value_str float_str (not_recorded (of_float o)) = shown_float float_str o.
Proof. by destruct o. Qed.

Lemma diagnosis_eq (doc : ClinicalDocumentation (float:=float)) :
  diagnosis float_str doc
  = _ ← lab_test_clean (lab_test doc);
    Ok (strip ("**Diagnoses:**" +:+ nl +:+ shown (dx doc))).
Proof.
  unfold diagnosis, format_not_recorded, model_dump.
  destruct (lab_test_clean (lab_test doc)) as [cleaned|]; [|done].
  cbn [mbind result_bind].
  match goal with
  | |- context [str_format ?f ?t ?e] =>
      assert (str_format f t e
              = Ok ("**Diagnoses:**" +:+ nl +:+ value_str f (not_recorded (of_str (dx doc)))
                    +:+ EmptyString)) as ->
        by reflexivity
  end.
  cbn [mbind result_bind]. by rewrite string_app_nil_r, value_str_of_str.
Qed.
End RenderingFacts.

Section RenderingProofs.
Context {float : Type} (float_str : float -> string).
Implicit Types doc : ClinicalDocumentation (float:=float).

Lemma format_not_recorded_fails template doc e :
  lab_test_clean (lab_test doc) = Err e ->
  format_not_recorded float_str template doc = Err e.
Proof. intros H. unfold format_not_recorded, model_dump. by rewrite H. Qed.

(** X17. Every rendering dumps the model, which evaluates [lab_test_clean]: when
    the laboratory text cannot be normalized, [history], [investigations],
    [diagnosis] and [treatment] all raise its exception. *)
Theorem renderings_need_lab_test doc e :
  lab_test_clean (lab_test doc) = Err e ->
  history float_str doc = Err e
  /\ investigations float_str doc = Err e
  /\ diagnosis float_str doc = Err e
  /\ treatment float_str doc = Err e.
Proof. intros H. repeat split; by apply format_not_recorded_fails. Qed.

Lemma investigations_eq doc :
  investigations float_str doc
  = cleaned ← lab_test_clean (lab_test doc);
    Ok (strip ("**Investigations conducted:**" +:+ nl +:+ shown cleaned)).
Proof.
  unfold investigations, format_not_recorded, model_dump.
  destruct (lab_test_clean (lab_test doc)) as [cleaned|]; [|done].
  cbn [mbind result_bind].
  match goal with
  | |- context [str_format ?f ?t ?e] =>
      assert (str_format f t e
              = Ok ("**Investigations conducted:**" +:+ nl
                    +:+ value_str f (not_recorded (of_str cleaned))
                    +:+ EmptyString)) as ->
        by reflexivity
  end.
  cbn [mbind result_bind]. by rewrite string_app_nil_r, value_str_of_str.
Qed.

Lemma treatment_eq doc :
  treatment float_str doc
  = _ ← lab_test_clean (lab_test doc);
    Ok (strip ("**Referrals:**" +:+ nl +:+ shown (referrals doc) +:+ nl +:+ nl
               +:+ "**Medications:**" +:+ nl +:+ shown (rx doc))).
Proof.
  unfold treatment, format_not_recorded, model_dump.
  destruct (lab_test_clean (lab_test doc)) as [cleaned|]; [|done].
  cbn [mbind result_bind].
  match goal with
  | |- context [str_format ?f ?t ?e] =>
      assert (str_format f t e
              = Ok ("**Referrals:**" +:+ nl
                    +:+ value_str f (not_recorded (of_str (referrals doc)))
                    +:+ nl +:+ nl +:+ "**Medications:**" +:+ nl
                    +:+ value_str f (not_recorded (of_str (rx doc)))
                    +:+ EmptyString)) as ->
        by reflexivity
  end.
  cbn [mbind result_bind]. by rewrite string_app_nil_r, !value_str_of_str.
Qed.

(** X18. When the laboratory text can be normalized, [investigations],
    [diagnosis] and [treatment] return their template with each field
    replaced by its text, or by "Not recorded" when the field is absent, and
    stripped. *)
Theorem renderings_when_lab_test_ok doc cleaned :
  lab_test_clean (lab_test doc) = Ok cleaned ->
  investigations float_str doc
  = Ok (strip ("**Investigations conducted:**" +:+ nl +:+ shown cleaned))
  /\ diagnosis float_str doc
     = Ok (strip ("**Diagnoses:**" +:+ nl +:+ shown (dx doc)))
  /\ treatment float_str doc
     = Ok (strip ("**Referrals:**" +:+ nl +:+ shown (referrals doc) +:+ nl +:+ nl
                  +:+ "**Medications:**" +:+ nl +:+ shown (rx doc))).
Proof.
  intros H. rewrite investigations_eq, diagnosis_eq, treatment_eq, H. done.
Qed.

(** X19. When the laboratory text can be normalized, [history] returns its template
    with each field replaced by its text (a number by its [str]), or by
    "Not recorded" when the field is absent, and stripped. *)
Theorem history_when_lab_test_ok doc cleaned :
  lab_test_clean (lab_test doc) = Ok cleaned ->
  history float_str doc
  = Ok (strip (
      "**Age:** " +:+ age doc +:+ nl +:+
      "**Gender:** " +:+ gender doc +:+ nl +:+
      nl +:+
      "**Allergies:** " +:+ shown (allergies doc) +:+ nl +:+
      "**Social history:** " +:+ shown (social_history doc) +:+ nl +:+
      "**History of chronic illness:** " +:+ shown (chronic_illness doc) +:+ nl +:+
      "**Obstetric history:** " +:+ shown (obs doc) +:+ nl +:+
      nl +:+
      "**Vitals:**" +:+ nl +:+
      "**Height:** " +:+ shown_float float_str (doc_hgt doc) +:+ nl +:+
      "**Weight:** " +:+ shown_float float_str (doc_wgt doc) +:+ nl +:+
      "**Heart rate:** " +:+ shown_float float_str (doc_bpm doc) +:+ nl +:+
      "**Blood pressure:** " +:+ shown (doc_bpr doc) +:+ nl +:+
      "**Mean upper arm circumference:** " +:+ shown (doc_muc doc) +:+ nl +:+
      "**Temperature:** " +:+ shown_float float_str (doc_tmp doc) +:+ nl +:+
      "**Respiratory rate:** " +:+ shown_float float_str (doc_rr doc) +:+ nl +:+
      "**SpO2:** " +:+ shown_float float_str (doc_sp2 doc) +:+ nl +:+
      nl +:+
      "**Chief complaint:** " +:+ shown (cc doc) +:+ nl +:+
      nl +:+
      "**Clinical notes:**" +:+ nl +:+
      shown (clinical_notes_clean doc) +:+ nl +:+
      nl +:+
      "**Structured examinations recorded:** " +:+ shown (examination doc))).
Proof.
  intros H. unfold history, format_not_recorded, model_dump. rewrite H.
  cbn [mbind result_bind].
  match goal with
  | |- context [str_format ?f ?t ?e] =>
      assert (str_format f t e
      = Ok (
      "**Age:** " +:+ age doc +:+ nl +:+
      "**Gender:** " +:+ gender doc +:+ nl +:+
      nl +:+
      "**Allergies:** " +:+ value_str f (not_recorded (of_str (allergies doc))) +:+ nl +:+
      "**Social history:** " +:+ value_str f (not_recorded (of_str (social_history doc))) +:+ nl +:+
      "**History of chronic illness:** " +:+ value_str f (not_recorded (of_str (chronic_illness doc))) +:+ nl +:+
      "**Obstetric history:** " +:+ value_str f (not_recorded (of_str (obs doc))) +:+ nl +:+
      nl +:+
      "**Vitals:**" +:+ nl +:+
      "**Height:** " +:+ value_str f (not_recorded (of_float (doc_hgt doc))) +:+ nl +:+
      "**Weight:** " +:+ value_str f (not_recorded (of_float (doc_wgt doc))) +:+ nl +:+
      "**Heart rate:** " +:+ value_str f (not_recorded (of_float (doc_bpm doc))) +:+ nl +:+
      "**Blood pressure:** " +:+ value_str f (not_recorded (of_str (doc_bpr doc))) +:+ nl +:+
      "**Mean upper arm circumference:** " +:+ value_str f (not_recorded (of_str (doc_muc doc))) +:+ nl +:+
      "**Temperature:** " +:+ value_str f (not_recorded (of_float (doc_tmp doc))) +:+ nl +:+
      "**Respiratory rate:** " +:+ value_str f (not_recorded (of_float (doc_rr doc))) +:+ nl +:+
      "**SpO2:** " +:+ value_str f (not_recorded (of_float (doc_sp2 doc))) +:+ nl +:+
      nl +:+
      "**Chief complaint:** " +:+ value_str f (not_recorded (of_str (cc doc))) +:+ nl +:+
      nl +:+
      "**Clinical notes:**" +:+ nl +:+
      value_str f (not_recorded (of_str (clinical_notes_clean doc))) +:+ nl +:+
      nl +:+
      "**Structured examinations recorded:** "
      +:+ value_str f (not_recorded (of_str (examination doc))) +:+ EmptyString)) as ->
        by reflexivity
  end.
  cbn [mbind result_bind].
  by rewrite string_app_nil_r, !value_str_of_str, !value_str_of_float.
Qed.
End RenderingProofs.

Lemma renderings_need_lab_test_witness :
  lab_test_clean (lab_test (example_doc (Some "Malaria RDT: Negative"%string)))
    = Err (ValueError "not enough values to unpack (expected 2, got 1)")
  /\ diagnosis (fun _ => EmptyString) (example_doc (Some "Malaria RDT: Negative"%string))
     = Err (ValueError "not enough values to unpack (expected 2, got 1)").
Proof.
  assert (lab_test_clean (lab_test (example_doc (Some "Malaria RDT: Negative"%string)))
          = Err (ValueError "not enough values to unpack (expected 2, got 1)")) as H
    by (vm_compute; reflexivity).
  split; [exact H|].
  exact (proj1 (proj2 (proj2 (renderings_need_lab_test (fun _ => EmptyString) _ _ H)))).
Defined.

Lemma renderings_when_lab_test_ok_witness :
  lab_test_clean (lab_test (example_doc None)) = Ok None
  /\ investigations (fun _ => EmptyString) (example_doc None)
     = Ok ("**Investigations conducted:**" +:+ nl +:+ "Not recorded")
  /\ diagnosis (fun _ => EmptyString) (example_doc None)
     = Ok ("**Diagnoses:**" +:+ nl +:+ "Malaria")
  /\ treatment (fun _ => EmptyString) (example_doc None)
     = Ok ("**Referrals:**" +:+ nl +:+ "Not recorded" +:+ nl +:+ nl +:+ "**Medications:**").
Proof.
  split; [reflexivity|].
  destruct (renderings_when_lab_test_ok (fun _ : Z => EmptyString) (example_doc None) None eq_refl)
    as (Hi & Hd & Ht).
  rewrite Hi, Hd, Ht. repeat split; vm_compute; reflexivity.
Defined.

Lemma history_when_lab_test_ok_witness :
  lab_test_clean (lab_test (example_doc None)) = Ok None
  /\ is_ok (history (fun _ : Z => EmptyString) (example_doc None)) = true.
Proof.
  split; [reflexivity|].
  by rewrite (history_when_lab_test_ok (fun _ : Z => EmptyString) (example_doc None) None eq_refl).
Defined.
